(** * LinearInterpolator: the linear path generator of uuv_trajectory_generator

    A shallow embedding of
    [uuv_trajectory_generator/path_generator/linear_interpolator.py] and of
    the duration handling of [uuv_control_utils/scripts/set_thruster_state.py].

    Numbers.  Python floats and numpy float64 values are modelled by the type
    [num]: [Fin r] is a finite value, carried as an exact real (rounding is
    not modelled), and [NaN] stands for the non-finite value (IEEE nan or an
    infinity) that numpy produces, with a warning and without raising, when a
    float64 is divided by zero.  Arithmetic propagates [NaN]; a comparison
    with [NaN] is false.  The only non-finite values that are ever compared
    in this program are the entries [0/0] of the arc-length table, which are
    true nans.

    Effects.  A method of the generator is a function from the generator
    state to a result and a new state; the result is a value or a raised
    Python exception. *)

From Stdlib Require Import Reals List Lra Lia ZArith Bool Arith.
From Stdlib Require String Ascii DecimalString DecimalZ DecimalPos.
Import ListNotations.

Local Open Scope R_scope.

(** ** Numbers *)

Inductive num : Type :=
| Fin (r : R)
| NaN.

Definition nadd (a b : num) : num :=
  match a, b with
  | Fin x, Fin y => Fin (x + y)
  | _, _ => NaN
  end.

Definition nsub (a b : num) : num :=
  match a, b with
  | Fin x, Fin y => Fin (x - y)
  | _, _ => NaN
  end.

Definition nmul (a b : num) : num :=
  match a, b with
  | Fin x, Fin y => Fin (x * y)
  | _, _ => NaN
  end.

(** float64 division: a zero divisor gives a non-finite value, no exception. *)
Definition ndiv (a b : num) : num :=
  match a, b with
  | Fin x, Fin y => if Req_dec_T y 0 then NaN else Fin (x / y)
  | _, _ => NaN
  end.

(** [a <= b] as numpy evaluates it: false as soon as one side is nan. *)
Definition nleb (a b : num) : bool :=
  match a, b with
  | Fin x, Fin y => if Rle_dec x y then true else false
  | _, _ => false
  end.

Definition nle (a b : num) : Prop :=
  match a, b with
  | Fin x, Fin y => x <= y
  | _, _ => False
  end.

(** Python's [max(a, b)] returns [b] when [b > a] and [a] otherwise;
    [min(a, b)] returns [b] when [b < a] and [a] otherwise. *)
Definition py_max (a b : R) : R := if Rlt_dec a b then b else a.
Definition py_min (a b : R) : R := if Rlt_dec b a then b else a.

(** ** Results of a call: a value or a raised exception *)

Inductive exn : Type :=
| AttributeError
| IndexError
| TypeError
| ZeroDivisionError
| RuntimeError
| ValueError.

Inductive res (A : Type) : Type :=
| Ok (a : A)
| Raise (e : exn).

Arguments Ok {A} a.
Arguments Raise {A} e.

(** ** Vectors, waypoints and line segments *)

(** A point given by the caller: three finite coordinates. *)
Record Point : Type := mkPoint { px : R; py : R; pz : R }.

(** A numpy array of three float64 computed by the generator. *)
Record Vec3 : Type := mkVec { vx : num; vy : num; vz : num }.

Definition vec_of_point (p : Point) : Vec3 :=
  mkVec (Fin (px p)) (Fin (py p)) (Fin (pz p)).

(** [ndarray.tolist()]. *)
Definition tolist (v : Vec3) : list num := [vx v; vy v; vz v].

(** Modelled from the spec: the class [Waypoint] of the package
    [uuv_waypoints] is not among the sources.  Spec section 3: a position
    of three real coordinates, [max_forward_speed] and [heading_offset]. *)
Record Waypoint : Type := mkWaypoint {
  pos : Point;
  max_forward_speed : R;
  heading_offset : R
}.

(** Modelled from the spec: the class [WaypointSet] is not among the
    sources.  Spec section 3: an ordered sequence of zero or more waypoints;
    [num_waypoints] is its length and [get_waypoint i] its i-th element. *)
Definition WaypointSet : Type := list Waypoint.

Definition num_waypoints (ws : WaypointSet) : nat := length ws.

(** Modelled from the spec: the class [LineSegment] ([line_segment.py]) is
    not among the sources.  Spec section 3: two endpoints [p0], [p1];
    [length = ||p1 - p0||]; [interpolate(u) = p0 + u (p1 - p0)], not
    clamped. *)
Record LineSegment : Type := mkLineSegment {
  p_init : Point;
  p_target : Point
}.

Definition sqr (a : R) : R := a * a.

Definition get_length (seg : LineSegment) : R :=
  sqrt (sqr (px (p_target seg) - px (p_init seg))
      + sqr (py (p_target seg) - py (p_init seg))
      + sqr (pz (p_target seg) - pz (p_init seg))).

Definition interpolate (seg : LineSegment) (u : num) : Vec3 :=
  let p0 := vec_of_point (p_init seg) in
  let p1 := vec_of_point (p_target seg) in
  mkVec (nadd (vx p0) (nmul u (nsub (vx p1) (vx p0))))
        (nadd (vy p0) (nmul u (nsub (vy p1) (vy p0))))
        (nadd (vz p0) (nmul u (nsub (vz p1) (vz p0)))).

(** ** numpy helpers *)

Fixpoint cumsum_from (acc : R) (l : list R) : list R :=
  match l with
  | [] => []
  | v :: rest => (acc + v) :: cumsum_from (acc + v) rest
  end.

Definition np_cumsum (l : list R) : list R := cumsum_from 0 l.

Definition np_sum (l : list R) : R := fold_right Rplus 0 l.

(** [np.mean]: the sum over the number of elements (nan on an empty list). *)
Definition np_mean (l : list R) : num :=
  ndiv (Fin (np_sum l)) (Fin (INR (length l))).

(** The ceiling of a real, from the Standard Library's [up]
    ([up r] is the integer with [r < up r <= r + 1]). *)
Definition Zceil (r : R) : Z := (1 - up (- r))%Z.

(** [np.arange(start, stop, step)]: [ceil((stop - start) / step)] values
    [start + i * step] (none when that count is not positive); a zero step
    raises. *)
Definition np_arange (start stop step : R) : res (list R) :=
  if Req_dec_T step 0 then Raise ZeroDivisionError
  else Ok (map (fun i => start + INR i * step)
               (seq 0 (Z.to_nat (Zceil ((stop - start) / step))))).

(** ** External libraries *)

(** scipy's [splrep]/[splev] and the quaternion helpers of
    [tf_quaternion.transformations] are library code outside this
    repository; they are taken as they are called.  [splrep] (with [k=3],
    [per=False]) maps the abscissae and ordinates to a spline
    representation or raises: it raises [TypeError] unless there are more
    points than the degree 3 (its check [m > k]), and it raises on
    abscissae that are nan; on other inputs its outcome is left open.
    [splev] evaluates a representation.  What these functions compute is
    left open. *)
Class External : Type := {
  tck : Type;
  quat : Type;
  splrep : list num -> list R -> res tck;
  splev : R -> tck -> num;
  quaternion_about_axis : num -> Point -> quat;
  quaternion_multiply : quat -> quat -> quat;
  splrep_degree : forall x y,
    (length x <= 3)%nat -> splrep x y = Raise TypeError;
  splrep_nan : forall x y,
    In NaN x -> exists e, splrep x y = Raise e
}.

(** Modelled from the spec: the class [TrajectoryPoint]
    ([trajectory_point.py]) is not among the sources.  Spec section 3: a
    timestamp, a position and an orientation quaternion. *)
Record TrajectoryPoint `{External} : Type := mkTrajectoryPoint {
  pnt_t : R;
  pnt_pos : list num;
  pnt_rotq : quat
}.

Definition set_pnt_t `{External} (v : R) (p : TrajectoryPoint) : TrajectoryPoint :=
  mkTrajectoryPoint _ v (pnt_pos p) (pnt_rotq p).

Definition set_pnt_pos `{External} (v : list num) (p : TrajectoryPoint) : TrajectoryPoint :=
  mkTrajectoryPoint _ (pnt_t p) v (pnt_rotq p).

Definition set_pnt_rotq `{External} (v : quat) (p : TrajectoryPoint) : TrajectoryPoint :=
  mkTrajectoryPoint _ (pnt_t p) (pnt_pos p) v.

(** [visualization_msgs.msg.MarkerArray]: the list of its markers. *)
Definition MarkerArray : Type := list nat.

(** ** The generator state *)

(** The attributes of a [LinearInterpolator] that [linear_interpolator.py]
    reads or writes.  [_interp_pos] and [_interp_heading] are the two
    entries of the dictionary [_interp_fcns]: the list of segments (or
    [None]) and whether the heading lambda is installed (the lambda reads
    [_heading_spline] when it is called).  The other attributes come from
    the base class [PathGenerator]. *)
Record LinearInterpolator `{External} : Type := mkLinearInterpolator {
  _waypoints : option WaypointSet;
  _interp_pos : option (list LineSegment);
  _interp_heading : bool;
  _heading_spline : option tck;
  _s : list num;
  _segment_to_wp_map : list nat;
  _markers_msg : MarkerArray;
  _marker_id : nat;
  _duration : option num;
  _start_time : option R;
  _s_step : R;
  _last_rot : quat;
  _init_rot : quat
}.

Definition set_last_rot `{External} (q : quat) (self : LinearInterpolator)
  : LinearInterpolator :=
  mkLinearInterpolator _
    (_waypoints self) (_interp_pos self) (_interp_heading self)
    (_heading_spline self) (_s self) (_segment_to_wp_map self)
    (_markers_msg self) (_marker_id self) (_duration self)
    (_start_time self) (_s_step self) q (_init_rot self).

(** The parts of the base class [PathGenerator] ([path_generator.py], not
    among the sources) that the linear interpolator calls and whose result
    is left open: the look-direction quaternion [_compute_rot_quat], a
    method that may read the generator, and the trajectory point that
    [TrajectoryPoint()] builds. *)
Class PathGeneratorBase `{External} : Type := {
  _compute_rot_quat : LinearInterpolator -> num -> num -> num -> quat;
  TrajectoryPoint_new : TrajectoryPoint
}.

(** ** The monad of methods *)

Section Methods.
Context `{Ext : External} `{Base : !PathGeneratorBase}.

Definition M (A : Type) : Type := LinearInterpolator -> res A * LinearInterpolator.

Definition ret {A : Type} (a : A) : M A := fun self => (Ok a, self).

Definition raise {A : Type} (e : exn) : M A := fun self => (Raise e, self).

Definition bind {A B : Type} (m : M A) (k : A -> M B) : M B :=
  fun self =>
    match m self with
    | (Ok a, self') => k a self'
    | (Raise e, self') => (Raise e, self')
    end.

Definition get : M LinearInterpolator := fun self => (Ok self, self).

Definition modify (f : LinearInterpolator -> LinearInterpolator) : M unit :=
  fun self => (Ok tt, f self).

End Methods.

Notation "x <- m ;; k" := (bind m (fun x => k))
  (at level 61, m at next level, right associativity).
Notation "m ;;; k" := (bind m (fun _ => k))
  (at level 61, right associativity).

(** ** The methods of [LinearInterpolator] *)

Section Interpolator.
Context `{Ext : External} `{Base : !PathGeneratorBase}.

(** The loop of [init_interpolator] over [i = 1 .. num_waypoints - 1]:
    one [LineSegment(get_waypoint(i - 1).pos, get_waypoint(i).pos)] per
    pair of consecutive waypoints, in order. *)
Fixpoint build_segments (wps : WaypointSet) : list LineSegment :=
  match wps with
  | a :: (b :: _) as rest => mkLineSegment (pos a) (pos b) :: build_segments rest
  | _ => []
  end.

(** [lengths = [0] + [seg.get_length() for seg in segments]]. *)
Definition path_lengths (segs : list LineSegment) : list R :=
  0 :: map get_length segs.

(** [np.cumsum(lengths) / np.sum(lengths)]. *)
Definition arc_table (lengths : list R) : list num :=
  map (fun c => ndiv (Fin c) (Fin (np_sum lengths))) (np_cumsum lengths).

Definition init_interpolator : M bool := fun self =>
  match _waypoints self with
  | None => (Ok false, self)
  | Some wps =>
      if (num_waypoints wps <? 2)%nat then (Ok false, self)
      else
        let segs := build_segments wps in
        let lengths := path_lengths segs in
        let s := arc_table lengths in
        let mean_vel := np_mean (map max_forward_speed wps) in
        let duration :=
          match _duration self with
          | None => Some (ndiv (Fin (np_sum lengths)) mean_vel)
          | Some d => Some d
          end in
        let start_time :=
          match _start_time self with
          | None => Some 0
          | Some t0 => Some t0
          end in
        let heading := map heading_offset wps in
        match splrep s heading with
        | Raise e =>
            (Raise e,
             mkLinearInterpolator _
               (Some wps) (Some segs) (_interp_heading self)
               (_heading_spline self) s
               [0%nat] [] 0%nat duration start_time
               (_s_step self) (_last_rot self) (_init_rot self))
        | Ok spl =>
            (Ok true,
             mkLinearInterpolator _
               (Some wps) (Some segs) true (Some spl) s
               [0%nat] [] 0%nat duration start_time
               (_s_step self) (_last_rot self) (_init_rot self))
        end
  end.

Definition set_parameters {P : Type} (params : P) : M bool := ret true.

(** The smallest index whose table entry is at least [s], if there is one. *)
Fixpoint first_index_geq (s : R) (table : list num) : option nat :=
  match table with
  | [] => None
  | e :: rest =>
      if nleb (Fin s) e then Some 0%nat
      else option_map S (first_index_geq s rest)
  end.

(** Modelled from the spec: [get_segment_idx] is a method of the base class
    [PathGenerator], which is not among the sources.  Spec section 4.2:
    the smallest index [idx] such that [s <= table[idx]].  When no entry
    is that large ([s] beyond the end of the table), the last index is
    taken: section 4.3 has such an [s] extrapolated along a segment and
    not raise, which leaves no other index. *)
Definition get_segment_idx (self : LinearInterpolator) (s : R) : nat :=
  match first_index_geq s (_s self) with
  | Some idx => idx
  | None => (length (_s self) - 1)%nat
  end.

(** [seq[i]] on a list or array: [IndexError] out of range. *)
Definition getitem {A : Type} (l : list A) (i : nat) : M A :=
  match nth_error l i with
  | Some a => ret a
  | None => raise IndexError
  end.

Definition generate_pos (s : R) : M (option Vec3) := fun self =>
  match _interp_pos self with
  | None => (Ok None, self)
  | Some segs =>
      let idx := get_segment_idx self s in
      if (idx =? 0)%nat then
        (seg <- getitem segs idx ;;
         ret (Some (interpolate seg (Fin 0)))) self
      else
        (lo <- getitem (_s self) (idx - 1) ;;
         hi <- getitem (_s self) idx ;;
         let u_k := ndiv (nsub (Fin s) lo) (nsub hi lo) in
         seg <- getitem segs (idx - 1) ;;
         ret (Some (interpolate seg u_k))) self
  end.

(** [p.tolist()] on the result of [generate_pos]: [None] has no such
    attribute. *)
Definition call_tolist (p : option Vec3) : M (list num) :=
  match p with
  | Some v => ret (tolist v)
  | None => raise AttributeError
  end.

(** The loop of [get_samples] over the sample values. *)
Fixpoint sample_loop (s : list R) : M (list TrajectoryPoint) :=
  match s with
  | [] => ret []
  | i :: rest =>
      p <- generate_pos i ;;
      l <- call_tolist p ;;
      let pnt := set_pnt_t 0 (set_pnt_pos l TrajectoryPoint_new) in
      pnts <- sample_loop rest ;;
      ret (pnt :: pnts)
  end.

Definition get_samples (max_time : option R) (step : R)
  : M (option (list TrajectoryPoint)) := fun self =>
  match _waypoints self with
  | None => (Ok None, self)
  | Some _ =>
      match _interp_pos self with
      | None => (Ok None, self)
      | Some _ =>
          match np_arange 0 (1 + step) step with
          | Raise e => (Raise e, self)
          | Ok s => (pnts <- sample_loop s ;; ret (Some pnts)) self
          end
      end
  end.

(** [p[0]], [p[1]], [p[2]] on the result of [generate_pos]: [None] is not
    subscriptable. *)
Definition subscript (p : option Vec3) : M Vec3 :=
  match p with
  | Some v => ret v
  | None => raise TypeError
  end.

(** [self._interp_fcns['heading'](s)]: calling [None] raises; the lambda
    evaluates the spline stored in the generator. *)
Definition call_heading (s : R) : M num := fun self =>
  if _interp_heading self then
    match _heading_spline self with
    | Some spl => (Ok (splev s spl), self)
    | None => (Raise TypeError, self)
    end
  else (Raise TypeError, self).

Definition generate_quat (s : R) : M quat := fun self =>
  let s := py_max 0 s in
  let s := py_min s 1 in
  if Req_dec_T s 0 then
    (Ok (_init_rot self), set_last_rot (_init_rot self) self)
  else
    let last_s := py_max 0 (s - _s_step self) in
    (this_pos <- generate_pos s ;;
     last_pos <- generate_pos last_s ;;
     a <- subscript this_pos ;;
     b <- subscript last_pos ;;
     let dx := nsub (vx a) (vx b) in
     let dy := nsub (vy a) (vy b) in
     let dz := nsub (vz a) (vz b) in
     self1 <- get ;;
     let rotq := _compute_rot_quat self1 dx dy dz in
     modify (set_last_rot rotq) ;;;
     h <- call_heading s ;;
     let q_step := quaternion_about_axis h (mkPoint 0 0 1) in
     let rotq := quaternion_multiply rotq q_step in
     modify (set_last_rot rotq) ;;;
     ret rotq) self.

Definition generate_pnt (s : R) (t : R) : M TrajectoryPoint :=
  let pnt := set_pnt_t t TrajectoryPoint_new in
  p <- generate_pos s ;;
  l <- call_tolist p ;;
  let pnt := set_pnt_pos l pnt in
  q <- generate_quat s ;;
  ret (set_pnt_rotq q pnt).

End Interpolator.

(** ** The duration parameter of [set_thruster_state.py] *)

Module SetThrusterState.

(** What [main] logs for the duration: ['Inf.'] or the number. *)
Inductive duration_text : Type :=
| Inf
| Secs (d : R).

(** Lines 63 to 68 of [main]: the duration is 0.0 unless the node has the
    parameter; a duration equal to 0.0 raises [RuntimeError]. *)
Definition read_duration (parameter : option R) : res R :=
  let duration := 0 in
  let duration :=
    match parameter with
    | Some v => v
    | None => duration
    end in
  if Req_dec_T duration 0 then Raise RuntimeError else Ok duration.

(** Line 70: ['Inf.' if duration < 0 else str(duration)]. *)
Definition log_duration (duration : R) : duration_text :=
  if Rlt_dec duration 0 then Inf else Secs duration.

(** Line 131: the thruster is set back to its previous state, once the
    duration has elapsed, only [if duration > 0]. *)
Definition returns_to_previous_state (duration : R) : bool :=
  if Rlt_dec 0 duration then true else false.

End SetThrusterState.

(** ** The start of [main] in [set_thruster_state.py] *)

Module ThrusterScript.
Import Ascii String.
Local Open Scope string_scope.

(** ['%d' % n] for an integer: its decimal digits, after a minus sign when
    it is negative. *)
Definition format_d (n : Z) : string :=
  DecimalString.NilZero.string_of_int (Z.to_int n).

(** ['/%s/thrusters/id_%d/%s' % (ns, thruster_id, service_name)]. *)
Definition build_service_name (ns : string) (thruster_id : Z)
    (service_name : string) : string :=
  "/" ++ ns ++ "/thrusters/id_" ++ format_d thruster_id ++ "/" ++ service_name.

(** [s.replace('/', '')]. *)
Fixpoint remove_slashes (s : string) : string :=
  match s with
  | EmptyString => EmptyString
  | String c rest =>
      if Ascii.eqb c "/" then remove_slashes rest
      else String c (remove_slashes rest)
  end.

(** The parameters of the node that [main] reads.  A parameter that the
    node does not have is [None].  For [thruster_id] the value is the
    integer when the parameter has the type INTEGER, and [None] when it has
    another type. *)
Record Parameters : Type := mkParameters {
  starting_time_parameter : option R;
  duration_parameter : option R;
  is_on_parameter : option bool;
  thruster_id_parameter : option (option Z)
}.

(** The messages of the [RuntimeError]s that [main] raises before its first
    request. *)
Inductive failure : Type :=
| DurationNotSet
| IsOnNotProvided
| ThrusterIdNotGiven
| InvalidThrusterId
| ServiceCallFailed
| ServiceNotAvailable (srv_name : string).

(** What [main] has settled when it sends the first request. *)
Record Settings : Type := mkSettings {
  starting_time : R;
  duration : R;
  is_on : bool;
  thruster_id : Z;
  srv_name : string
}.

(** Lines 55 to 99 of [main], in order: the starting time (the clock's time
    when the parameter is negative), the duration, the flag [is_on], the
    thruster id, the service name built from the namespace without its
    slashes, the creation of the client, whose exception is raised again
    as a [RuntimeError], and the wait for the service.  [now] is the time
    the clock gives, [created] tells whether [create_client] returns and
    [available] whether [wait_for_service] finds the service. *)
Definition setup (now : R) (namespace : string) (created : string -> bool)
    (available : string -> bool) (p : Parameters) : Settings + failure :=
  let starting_time := 0 in
  let starting_time :=
    match starting_time_parameter p with
    | Some v => v
    | None => starting_time
    end in
  let starting_time := if Rlt_dec starting_time 0 then now else starting_time in
  let duration := 0 in
  let duration :=
    match duration_parameter p with
    | Some v => v
    | None => duration
    end in
  if Req_dec_T duration 0 then inr DurationNotSet
  else
    match is_on_parameter p with
    | None => inr IsOnNotProvided
    | Some is_on =>
        let thruster_id := (-1)%Z in
        match thruster_id_parameter p with
        | None => inr ThrusterIdNotGiven
        | Some value =>
            let thruster_id :=
              match value with
              | Some v => v
              | None => thruster_id
              end in
            if (thruster_id <? 0)%Z then inr InvalidThrusterId
            else
              let vehicle_name := remove_slashes namespace in
              let srv_name :=
                build_service_name vehicle_name thruster_id
                  "set_thruster_state" in
              if created srv_name then
                if available srv_name then
                  inl (mkSettings starting_time duration is_on thruster_id
                         srv_name)
                else inr (ServiceNotAvailable srv_name)
              else inr ServiceCallFailed
        end
    end.

(** A string without the character ['/']. *)
Fixpoint no_slash (s : string) : Prop :=
  match s with
  | EmptyString => True
  | String c rest => c <> "/"%char /\ no_slash rest
  end.

End ThrusterScript.

(** ** A concrete instance of the libraries *)

(** Quaternions kept as the terms that build them, and a spline kept as the
    data it was fitted to: an instance that forgets nothing of what the
    generator passes to the libraries. *)
Inductive sym_quat : Type :=
| QIdentity
| QLook (dx dy dz : num)
| QAboutAxis (angle : num) (axis : Point)
| QMul (a b : sym_quat).

Definition is_nan (a : num) : bool :=
  match a with
  | NaN => true
  | Fin _ => false
  end.

(** A spline fit that raises where [splrep] is known to raise and keeps
    its data otherwise. *)
Definition sym_splrep (xs : list num) (ys : list R)
  : res (list num * list R) :=
  if (length xs <=? 3)%nat then Raise TypeError
  else if existsb is_nan xs then Raise ValueError
  else Ok (xs, ys).

#[local, refine] Instance sym_ext : External := {|
  tck := list num * list R;
  quat := sym_quat;
  splrep := sym_splrep;
  splev := fun _ _ => Fin 0;
  quaternion_about_axis := QAboutAxis;
  quaternion_multiply := QMul
|}.
Proof.
  - intros xs ys Hlen. unfold sym_splrep.
    destruct (Nat.leb_spec (length xs) 3); [reflexivity | lia].
  - intros xs ys Hnan. unfold sym_splrep.
    destruct (length xs <=? 3)%nat; [now exists TypeError |].
    assert (existsb is_nan xs = true) as ->
        by (apply existsb_exists; now exists NaN).
    now exists ValueError.
Defined.

#[local] Instance sym_base : @PathGeneratorBase sym_ext := {|
  _compute_rot_quat := fun _ dx dy dz => QLook dx dy dz;
  TrajectoryPoint_new := mkTrajectoryPoint sym_ext 0 [Fin 0; Fin 0; Fin 0] QIdentity
|}.

(** A generator as its constructor leaves it, holding the waypoints [ws]
    and the duration [d]: nothing compiled yet. *)
Definition new_generator (ws : option WaypointSet) (d : option num)
  : @LinearInterpolator sym_ext :=
  mkLinearInterpolator sym_ext ws None false None [] [] [] 0%nat d None
    (1 / 1000) QIdentity QIdentity.

Definition wp (a b c : R) : Waypoint := mkWaypoint (mkPoint a b c) 1 0.

(** The state after [init_interpolator] on a new generator holding [ws]. *)
Definition compiled_generator (ws : WaypointSet) : @LinearInterpolator sym_ext :=
  snd (init_interpolator (new_generator (Some ws) None)).

(** A generator is compiled when its segments, arc-length table and heading
    spline are those [init_interpolator] builds from its waypoints. *)
Definition compiled `{External} (self : LinearInterpolator) : Prop :=
  exists wps : WaypointSet,
    (2 <= length wps)%nat /\
    _waypoints self = Some wps /\
    _interp_pos self = Some (build_segments wps) /\
    _s self = arc_table (path_lengths (build_segments wps)) /\
    _interp_heading self = true /\
    exists spl : tck,
      _heading_spline self = Some spl /\
      splrep (_s self) (map heading_offset wps) = Ok spl.

(** The total length of the path through the waypoints. *)
Definition total_length (wps : WaypointSet) : R :=
  np_sum (map get_length (build_segments wps)).

(** ** Notions used in the statements *)

Section Notions.
Context `{Ext : External} `{Base : !PathGeneratorBase}.

(** The state [init_interpolator] leaves when it succeeds, [spl] being the
    spline that [splrep] returned. *)
Definition compiled_state (self : LinearInterpolator) (wps : WaypointSet)
    (spl : tck) : LinearInterpolator :=
  let segs := build_segments wps in
  let lengths := path_lengths segs in
  let s := arc_table lengths in
  mkLinearInterpolator _
    (Some wps) (Some segs) true (Some spl) s
    [0%nat] [] 0%nat
    (match _duration self with
     | None => Some (ndiv (Fin (np_sum lengths))
                          (np_mean (map max_forward_speed wps)))
     | Some d => Some d
     end)
    (match _start_time self with
     | None => Some 0
     | Some t0 => Some t0
     end)
    (_s_step self) (_last_rot self) (_init_rot self).

(** The call of [splrep] in [init_interpolator]: the heading offsets of the
    waypoints over their arc-length table. *)
Definition fit_heading (wps : WaypointSet) : res tck :=
  splrep (arc_table (path_lengths (build_segments wps)))
    (map heading_offset wps).

(** The state [init_interpolator] leaves when [splrep] raises: the
    segments, the table, the duration and the start time are already
    assigned, the heading spline and the heading function are not. *)
Definition raised_state (self : LinearInterpolator) (wps : WaypointSet)
  : LinearInterpolator :=
  let segs := build_segments wps in
  let lengths := path_lengths segs in
  let s := arc_table lengths in
  mkLinearInterpolator _
    (Some wps) (Some segs) (_interp_heading self) (_heading_spline self) s
    [0%nat] [] 0%nat
    (match _duration self with
     | None => Some (ndiv (Fin (np_sum lengths))
                          (np_mean (map max_forward_speed wps)))
     | Some d => Some d
     end)
    (match _start_time self with
     | None => Some 0
     | Some t0 => Some t0
     end)
    (_s_step self) (_last_rot self) (_init_rot self).

(** The number of samples and the i-th sample value of
    [np.arange(0, 1 + step, step)]. *)
Definition sample_count (step : R) : nat :=
  Z.to_nat (Zceil ((1 + step - 0) / step)).

Definition sample_value (step : R) (i : nat) : R := 0 + INR i * step.

(** The point [get_samples] builds for the position [v]. *)
Definition sample_point (v : Vec3) : TrajectoryPoint :=
  set_pnt_t 0 (set_pnt_pos (tolist v) TrajectoryPoint_new).

End Notions.

(** Two paths of four waypoints: ten units along the x axis, and four
    waypoints at the same place. *)
Definition line_path : WaypointSet :=
  [wp 0 0 0; wp 2 0 0; wp 5 0 0; wp 10 0 0].
Definition coincident_path : WaypointSet :=
  [wp 0 0 0; wp 0 0 0; wp 0 0 0; wp 0 0 0].

(** A path of two waypoints. *)
Definition two_point_path : WaypointSet := [wp 0 0 0; wp 10 0 0].

(** The generator compiled on [line_path] after an orientation query has
    left a look direction in the cursor. *)
Definition turned_generator : @LinearInterpolator sym_ext :=
  set_last_rot (QLook (Fin 1) (Fin 0) (Fin 0)) (compiled_generator line_path).

(** The generator compiled on [line_path] whose waypoint set has then been
    replaced by a single waypoint, as the assignment to [_waypoints] in
    [init_waypoints] does. *)
Definition replaced_generator : @LinearInterpolator sym_ext :=
  let g := compiled_generator line_path in
  mkLinearInterpolator sym_ext (Some [wp 0 0 0])
    (_interp_pos g) (_interp_heading g) (_heading_spline g) (_s g)
    (_segment_to_wp_map g) (_markers_msg g) (_marker_id g) (_duration g)
    (_start_time g) (_s_step g) (_last_rot g) (_init_rot g).

(** A generator that holds the waypoints of [line_path] next to segments,
    a table and markers left from another path. *)
Definition stale_generator : @LinearInterpolator sym_ext :=
  mkLinearInterpolator sym_ext (Some line_path)
    (Some [mkLineSegment (mkPoint 1 1 1) (mkPoint 2 2 2)]) true None
    [Fin 0; Fin 1] [0%nat] [7%nat] 3%nat None None
    (1 / 1000) QIdentity QIdentity.

(** The generator holds the segments and the arc-length table of the
    waypoints [wps]. *)
Definition path_of `{External} (self : LinearInterpolator) (wps : WaypointSet)
  : Prop :=
  (2 <= length wps)%nat /\
  _interp_pos self = Some (build_segments wps) /\
  _s self = arc_table (path_lengths (build_segments wps)).

(** The length of the path up to waypoint [i]. *)
Definition length_to (wps : WaypointSet) (i : nat) : R :=
  np_sum (firstn i (map get_length (build_segments wps))).

(** * Properties *)

(** ** Numbers and lists *)

Lemma ndiv_fin (a b : R) : b <> 0 -> ndiv (Fin a) (Fin b) = Fin (a / b).
Proof.
  intros Hb. unfold ndiv. destruct (Req_dec_T b 0); [contradiction | reflexivity].
Qed.

Lemma ndiv_zero (a : R) : ndiv (Fin a) (Fin 0) = NaN.
Proof.
  unfold ndiv. destruct (Req_dec_T 0 0) as [_ | n]; [reflexivity | now elim n].
Qed.

Lemma nleb_fin (a b : R) : nleb (Fin a) (Fin b) = true <-> a <= b.
Proof.
  unfold nleb. destruct (Rle_dec a b); split; intros; try assumption;
    try reflexivity; try discriminate; contradiction.
Qed.

Lemma nleb_fin_false (a b : R) : nleb (Fin a) (Fin b) = false <-> b < a.
Proof.
  unfold nleb. destruct (Rle_dec a b); split; intros; try discriminate;
    try reflexivity; lra.
Qed.

Lemma get_length_nonneg (seg : LineSegment) : 0 <= get_length seg.
Proof. apply sqrt_pos. Qed.

Lemma sqr_nonneg (a : R) : 0 <= sqr a.
Proof. unfold sqr. nra. Qed.

Lemma get_length_zero (seg : LineSegment) :
  get_length seg = 0 -> p_init seg = p_target seg.
Proof.
  unfold get_length. intros H.
  apply sqrt_eq_0 in H.
  - destruct seg as [[a b c] [a' b' c']]; simpl in *.
    pose proof (sqr_nonneg (a' - a)). pose proof (sqr_nonneg (b' - b)).
    pose proof (sqr_nonneg (c' - c)).
    assert (sqr (a' - a) = 0) as Ha by lra.
    assert (sqr (b' - b) = 0) as Hb by lra.
    assert (sqr (c' - c) = 0) as Hc by lra.
    unfold sqr in Ha, Hb, Hc.
    f_equal; nra.
  - pose proof (sqr_nonneg (px (p_target seg) - px (p_init seg))).
    pose proof (sqr_nonneg (py (p_target seg) - py (p_init seg))).
    pose proof (sqr_nonneg (pz (p_target seg) - pz (p_init seg))).
    lra.
Qed.

Lemma get_length_same (p : Point) : get_length (mkLineSegment p p) = 0.
Proof.
  unfold get_length, sqr; simpl.
  replace ((px p - px p) * (px p - px p) + (py p - py p) * (py p - py p)
           + (pz p - pz p) * (pz p - pz p)) with 0 by ring.
  apply sqrt_0.
Qed.

Lemma np_sum_nonneg (l : list R) : Forall (fun v => 0 <= v) l -> 0 <= np_sum l.
Proof.
  induction 1 as [| v l Hv _ IH]; simpl; lra.
Qed.

Lemma np_sum_app (l1 l2 : list R) : np_sum (l1 ++ l2) = np_sum l1 + np_sum l2.
Proof.
  induction l1 as [| v l1 IH]; simpl; [lra | rewrite IH; lra].
Qed.

Lemma np_sum_zero (l : list R) :
  Forall (fun v => 0 <= v) l -> np_sum l = 0 -> Forall (fun v => v = 0) l.
Proof.
  induction 1 as [| v l Hv Hl IH]; simpl; intros Hs; constructor.
  - pose proof (np_sum_nonneg l Hl). lra.
  - apply IH. pose proof (np_sum_nonneg l Hl). lra.
Qed.

Lemma cumsum_from_length (l : list R) (acc : R) :
  length (cumsum_from acc l) = length l.
Proof.
  revert acc. induction l as [| v l IH]; intros acc; simpl; [reflexivity |].
  now rewrite IH.
Qed.

Lemma cumsum_from_nth (l : list R) (acc : R) (i : nat) :
  (i < length l)%nat ->
  exists c, nth_error (cumsum_from acc l) i = Some c /\
            c = acc + np_sum (firstn (S i) l).
Proof.
  revert acc i. induction l as [| v l IH]; intros acc i Hi; simpl in Hi; [lia |].
  destruct i as [| i].
  - exists (acc + v). split; [reflexivity |]. simpl. destruct l; simpl; lra.
  - destruct (IH (acc + v) i ltac:(lia)) as (c & Hc & Ec).
    exists c. split; [exact Hc |].
    rewrite Ec. change (firstn (S (S i)) (v :: l)) with (v :: firstn (S i) l).
    simpl. lra.
Qed.

Lemma Forall_firstn_nonneg (l : list R) (i : nat) :
  Forall (fun v => 0 <= v) l -> Forall (fun v => 0 <= v) (firstn i l).
Proof.
  intros Hl. revert i. induction Hl as [| v l Hv Hl IH]; intros i.
  - rewrite firstn_nil. constructor.
  - destruct i as [| i]; simpl; constructor; auto.
Qed.

Lemma firstn_sum_le (l : list R) (i j : nat) :
  Forall (fun v => 0 <= v) l -> (i <= j)%nat ->
  np_sum (firstn i l) <= np_sum (firstn j l).
Proof.
  intros Hl. revert i j. induction Hl as [| v l Hv Hl IH]; intros i j Hij.
  - rewrite !firstn_nil. lra.
  - destruct i as [| i]; destruct j as [| j]; simpl; try lia; try lra.
    + pose proof (np_sum_nonneg (firstn j l) (Forall_firstn_nonneg l j Hl)). lra.
    + specialize (IH i j ltac:(lia)). lra.
Qed.

Lemma firstn_sum_le_total (l : list R) (i : nat) :
  Forall (fun v => 0 <= v) l -> np_sum (firstn i l) <= np_sum l.
Proof.
  intros Hl.
  destruct (le_lt_dec i (length l)) as [Hi | Hi].
  - rewrite <- (firstn_all l) at 2. now apply firstn_sum_le.
  - rewrite firstn_all2 by lia. lra.
Qed.

(** ** Segments and the arc-length table *)

Lemma build_segments_length (wps : WaypointSet) :
  length (build_segments wps) = (length wps - 1)%nat.
Proof.
  induction wps as [| a wps IH]; [reflexivity |].
  destruct wps as [| b wps]; [reflexivity |].
  change (build_segments (a :: b :: wps))
    with (mkLineSegment (pos a) (pos b) :: build_segments (b :: wps)).
  simpl length in *. rewrite IH. lia.
Qed.

Lemma build_segments_nth (wps : WaypointSet) (i : nat) (a b : Waypoint) :
  nth_error wps i = Some a -> nth_error wps (S i) = Some b ->
  nth_error (build_segments wps) i = Some (mkLineSegment (pos a) (pos b)).
Proof.
  revert i. induction wps as [| w wps IH]; intros i Ha Hb.
  - destruct i; discriminate.
  - destruct wps as [| w' wps]; [destruct i; discriminate |].
    change (build_segments (w :: w' :: wps))
      with (mkLineSegment (pos w) (pos w') :: build_segments (w' :: wps)).
    destruct i as [| i]; simpl in Ha, Hb.
    + injection Ha as <-. injection Hb as <-. reflexivity.
    + simpl. apply IH; assumption.
Qed.

Lemma build_segments_skipn (wps : WaypointSet) (i : nat) :
  build_segments (skipn i wps) = skipn i (build_segments wps).
Proof.
  revert wps. induction i as [| i IH]; intros wps; [reflexivity |].
  destruct wps as [| a wps]; [reflexivity |].
  destruct wps as [| b wps].
  - simpl. now destruct i.
  - change (build_segments (a :: b :: wps))
      with (mkLineSegment (pos a) (pos b) :: build_segments (b :: wps)).
    simpl skipn. apply IH.
Qed.

Lemma lengths_nonneg (segs : list LineSegment) :
  Forall (fun v => 0 <= v) (map get_length segs).
Proof.
  induction segs; simpl; constructor; auto using get_length_nonneg.
Qed.

Lemma arc_table_length (lengths : list R) :
  length (arc_table lengths) = length lengths.
Proof.
  unfold arc_table, np_cumsum. now rewrite length_map, cumsum_from_length.
Qed.

Lemma arc_table_nth (lens : list R) (i : nat) :
  (i <= length lens)%nat ->
  nth_error (arc_table (0 :: lens)) i
  = Some (ndiv (Fin (np_sum (firstn i lens))) (Fin (np_sum lens))).
Proof.
  intros Hi. unfold arc_table, np_cumsum.
  rewrite nth_error_map.
  destruct (cumsum_from_nth (0 :: lens) 0 i) as (c & Hc & Ec);
    [simpl; lia |].
  rewrite Hc.
  replace (np_sum (0 :: lens)) with (np_sum lens) by (simpl; lra).
  replace c with (np_sum (firstn i lens))
    by (rewrite Ec; rewrite firstn_cons; simpl; lra).
  reflexivity.
Qed.

(** ** The index of the segment *)

Lemma first_index_geq_some (s : R) (table : list num) (idx : nat) :
  first_index_geq s table = Some idx ->
  (exists e, nth_error table idx = Some e /\ nleb (Fin s) e = true) /\
  (forall j e, (j < idx)%nat -> nth_error table j = Some e ->
               nleb (Fin s) e = false).
Proof.
  revert idx. induction table as [| e table IH]; intros idx H;
    cbn [first_index_geq] in H.
  - discriminate.
  - destruct (nleb (Fin s) e) eqn:He.
    + injection H as <-. split.
      * exists e. now split.
      * intros j e' Hj. lia.
    + destruct (first_index_geq s table) as [k |] eqn:Hk; [| discriminate].
      injection H as <-.
      destruct (IH k eq_refl) as [Hex Hlt]. split.
      * exact Hex.
      * intros j e' Hj Hn. destruct j as [| j]; simpl in Hn.
        -- now injection Hn as <-.
        -- apply (Hlt j); [lia | exact Hn].
Qed.

Lemma first_index_geq_none (s : R) (table : list num) :
  first_index_geq s table = None ->
  forall e, In e table -> nleb (Fin s) e = false.
Proof.
  induction table as [| e table IH]; intros H e' Hin;
    cbn [first_index_geq In] in *.
  - contradiction.
  - destruct (nleb (Fin s) e) eqn:He; [discriminate |].
    destruct (first_index_geq s table); [discriminate |].
    destruct Hin as [<- | Hin]; auto.
Qed.

Section IndexFacts.
Context `{Ext : External}.

Lemma get_segment_idx_lt (self : LinearInterpolator) (s : R) :
  _s self <> [] -> (get_segment_idx self s < length (_s self))%nat.
Proof.
  intros Hne. unfold get_segment_idx.
  destruct (first_index_geq s (_s self)) as [idx |] eqn:H.
  - apply first_index_geq_some in H. destruct H as [(e & He & _) _].
    apply nth_error_Some. congruence.
  - destruct (_s self); [congruence | simpl; lia].
Qed.

Lemma compiled_table_length (self : LinearInterpolator) (wps : WaypointSet) :
  (2 <= length wps)%nat ->
  _s self = arc_table (path_lengths (build_segments wps)) ->
  length (_s self) = length wps.
Proof.
  intros Hn ->. rewrite arc_table_length. unfold path_lengths.
  simpl. rewrite length_map, build_segments_length. lia.
Qed.

End IndexFacts.

(** ** Position queries *)

Lemma interpolate_0 (seg : LineSegment) :
  interpolate seg (Fin 0) = vec_of_point (p_init seg).
Proof.
  unfold interpolate, vec_of_point; simpl.
  f_equal; f_equal; ring.
Qed.

Lemma interpolate_1 (seg : LineSegment) :
  interpolate seg (Fin 1) = vec_of_point (p_target seg).
Proof.
  unfold interpolate, vec_of_point; simpl.
  f_equal; f_equal; ring.
Qed.

Section PositionFacts.
Context `{Ext : External} `{Base : !PathGeneratorBase}.

Lemma getitem_some {A : Type} (l : list A) (i : nat) (a : A)
      (self : LinearInterpolator) :
  nth_error l i = Some a -> getitem l i self = (Ok a, self).
Proof. intros H. unfold getitem. now rewrite H. Qed.

(** [generate_pos] never writes to the generator. *)
Lemma generate_pos_frame (s : R) (self : LinearInterpolator) :
  snd (generate_pos s self) = self.
Proof.
  unfold generate_pos.
  destruct (_interp_pos self) as [segs |]; [| reflexivity].
  destruct (get_segment_idx self s =? 0)%nat;
    unfold bind, getitem, ret, raise;
    repeat match goal with
           | |- context [nth_error ?l ?i] => destruct (nth_error l i)
           end; reflexivity.
Qed.

Lemma generate_pos_not_compiled (s : R) (self : LinearInterpolator) :
  _interp_pos self = None -> generate_pos s self = (Ok None, self).
Proof. intros H. unfold generate_pos. now rewrite H. Qed.

(** On a compiled generator the index and both table entries exist, so
    [generate_pos] returns the position of step 3. *)
Lemma generate_pos_compiled (s : R) (self : LinearInterpolator)
      (wps : WaypointSet) :
  (2 <= length wps)%nat ->
  _interp_pos self = Some (build_segments wps) ->
  _s self = arc_table (path_lengths (build_segments wps)) ->
  let idx := get_segment_idx self s in
  (idx = 0%nat ->
   exists seg, nth_error (build_segments wps) 0 = Some seg /\
     generate_pos s self = (Ok (Some (interpolate seg (Fin 0))), self)) /\
  (idx <> 0%nat ->
   exists seg lo hi,
     nth_error (build_segments wps) (idx - 1) = Some seg /\
     nth_error (_s self) (idx - 1) = Some lo /\
     nth_error (_s self) idx = Some hi /\
     generate_pos s self
     = (Ok (Some (interpolate seg (ndiv (nsub (Fin s) lo) (nsub hi lo)))),
        self)).
Proof.
  intros Hn Hpos Hs idx.
  pose proof (compiled_table_length self wps Hn Hs) as Hlen.
  assert (idx < length (_s self))%nat as Hidx.
  { apply get_segment_idx_lt. intros E. rewrite E in Hlen. simpl in Hlen. lia. }
  pose proof (build_segments_length wps) as Hsegs.
  split; intros Hi.
  - destruct (nth_error (build_segments wps) 0) as [seg |] eqn:Hseg.
    + exists seg. split; [reflexivity |].
      unfold generate_pos. rewrite Hpos. fold idx. rewrite Hi. simpl Nat.eqb.
      unfold bind. rewrite (getitem_some _ _ _ _ Hseg). reflexivity.
    + apply nth_error_None in Hseg. lia.
  - destruct (nth_error (build_segments wps) (idx - 1)) as [seg |] eqn:Hseg;
      [| apply nth_error_None in Hseg; lia].
    destruct (nth_error (_s self) (idx - 1)) as [lo |] eqn:Hlo;
      [| apply nth_error_None in Hlo; lia].
    destruct (nth_error (_s self) idx) as [hi |] eqn:Hhi;
      [| apply nth_error_None in Hhi; lia].
    exists seg, lo, hi. repeat split.
    unfold generate_pos. rewrite Hpos. fold idx.
    destruct (Nat.eqb_spec idx 0) as [E | _]; [contradiction |].
    unfold bind.
    rewrite (getitem_some _ _ _ _ Hlo), (getitem_some _ _ _ _ Hhi),
      (getitem_some _ _ _ _ Hseg). reflexivity.
Qed.

Lemma generate_pos_returns (s : R) (self : LinearInterpolator) :
  compiled self -> exists v, generate_pos s self = (Ok (Some v), self).
Proof.
  intros (wps & Hn & _ & Hpos & Hs & _).
  destruct (generate_pos_compiled s self wps Hn Hpos Hs) as [H0 H1].
  destruct (Nat.eq_dec (get_segment_idx self s) 0) as [E | E].
  - destruct (H0 E) as (seg & _ & H). eauto.
  - destruct (H1 E) as (seg & lo & hi & _ & _ & _ & H). eauto.
Qed.

End PositionFacts.

(** ** Compiling the path *)

Lemma first_index_geq_intro (s : R) (table : list num) (idx : nat) (e : num) :
  nth_error table idx = Some e -> nleb (Fin s) e = true ->
  (forall j e', (j < idx)%nat -> nth_error table j = Some e' ->
                nleb (Fin s) e' = false) ->
  first_index_geq s table = Some idx.
Proof.
  revert idx. induction table as [| e0 table IH]; intros idx Hn He Hlt.
  - destruct idx; discriminate.
  - cbn [first_index_geq]. destruct idx as [| idx]; simpl in Hn.
    + injection Hn as ->. now rewrite He.
    + rewrite (Hlt 0%nat e0) by (simpl; auto; lia).
      rewrite (IH idx Hn He); [reflexivity |].
      intros j e' Hj Hj'. apply (Hlt (S j)); [lia | exact Hj'].
Qed.

(** Waypoints joined by segments of length zero share one position. *)
Lemma zero_lengths_same_pos (ws : WaypointSet) (w0 : Waypoint) :
  hd_error ws = Some w0 ->
  Forall (fun v => v = 0) (map get_length (build_segments ws)) ->
  forall w, In w ws -> pos w = pos w0.
Proof.
  revert w0. induction ws as [| a ws IH]; intros w0 Hh Hz w Hin.
  - contradiction.
  - simpl in Hh. injection Hh as <-.
    destruct Hin as [<- | Hin]; [reflexivity |].
    destruct ws as [| b ws]; [contradiction |].
    change (build_segments (a :: b :: ws))
      with (mkLineSegment (pos a) (pos b) :: build_segments (b :: ws)) in Hz.
    simpl map in Hz. inversion Hz as [| v l Hab Hrest]; subst.
    apply get_length_zero in Hab. simpl in Hab.
    rewrite Hab. apply (IH b); [reflexivity | exact Hrest | exact Hin].
Qed.

Section CompileFacts.
Context `{Ext : External} `{Base : !PathGeneratorBase}.

Lemma init_interpolator_ok (self : LinearInterpolator) (wps : WaypointSet)
      (spl : tck) :
  _waypoints self = Some wps -> (2 <= length wps)%nat ->
  fit_heading wps = Ok spl ->
  init_interpolator self = (Ok true, compiled_state self wps spl).
Proof.
  intros Hw Hn Hfit. unfold init_interpolator. rewrite Hw.
  destruct (Nat.ltb_spec (num_waypoints wps) 2) as [Hlt | _].
  - unfold num_waypoints in Hlt. lia.
  - unfold fit_heading in Hfit. rewrite Hfit. reflexivity.
Qed.

Lemma init_interpolator_raises (self : LinearInterpolator) (wps : WaypointSet)
      (e : exn) :
  _waypoints self = Some wps -> (2 <= length wps)%nat ->
  fit_heading wps = Raise e ->
  init_interpolator self = (Raise e, raised_state self wps).
Proof.
  intros Hw Hn Hfit. unfold init_interpolator. rewrite Hw.
  destruct (Nat.ltb_spec (num_waypoints wps) 2) as [Hlt | _].
  - unfold num_waypoints in Hlt. lia.
  - unfold fit_heading in Hfit. rewrite Hfit. reflexivity.
Qed.

Lemma init_interpolator_fails (self : LinearInterpolator) :
  (_waypoints self = None \/
   exists wps, _waypoints self = Some wps /\ (length wps < 2)%nat) ->
  init_interpolator self = (Ok false, self).
Proof.
  intros [Hw | (wps & Hw & Hn)]; unfold init_interpolator; rewrite Hw.
  - reflexivity.
  - destruct (Nat.ltb_spec (num_waypoints wps) 2) as [_ | Hge].
    + reflexivity.
    + unfold num_waypoints in Hge. lia.
Qed.

(** When [init_interpolator] returns, it returns [True] exactly when there
    are at least two waypoints, and then [splrep] has returned. *)
Lemma init_interpolator_inv (self self' : LinearInterpolator) (b : bool) :
  init_interpolator self = (Ok b, self') ->
  (b = true /\
   exists wps spl,
     _waypoints self = Some wps /\ (2 <= length wps)%nat /\
     fit_heading wps = Ok spl /\ self' = compiled_state self wps spl) \/
  (b = false /\ self' = self /\
   (_waypoints self = None \/
    exists wps, _waypoints self = Some wps /\ (length wps < 2)%nat)).
Proof.
  unfold init_interpolator.
  destruct (_waypoints self) as [wps |] eqn:Hw.
  - destruct (Nat.ltb_spec (num_waypoints wps) 2) as [Hlt | Hge];
      unfold num_waypoints in *.
    + intros H; injection H as <- <-.
      right. repeat split. right. exists wps. now split.
    + destruct (splrep _ _) as [spl | e] eqn:Hfit; intros H; [| discriminate].
      injection H as <- <-.
      left. split; [reflexivity |]. exists wps, spl. repeat split; assumption.
  - intros H; injection H as <- <-. right. repeat split. now left.
Qed.

Lemma compiled_state_compiled (self : LinearInterpolator) (wps : WaypointSet)
      (spl : tck) :
  (2 <= length wps)%nat -> fit_heading wps = Ok spl ->
  compiled (compiled_state self wps spl).
Proof.
  intros Hn Hfit. exists wps.
  split; [exact Hn |]. split; [reflexivity |]. split; [reflexivity |].
  split; [reflexivity |]. split; [reflexivity |].
  exists spl. split; [reflexivity | exact Hfit].
Qed.

(** [splrep] returns only for more than three waypoints. *)
Lemma fit_heading_count (wps : WaypointSet) (spl : tck) :
  (2 <= length wps)%nat -> fit_heading wps = Ok spl -> (4 <= length wps)%nat.
Proof.
  intros Hn Hfit.
  destruct (le_lt_dec (length wps) 3) as [Hle | Hlt]; [| exact Hlt].
  unfold fit_heading in Hfit. rewrite splrep_degree in Hfit; [discriminate |].
  rewrite arc_table_length. unfold path_lengths. simpl.
  rewrite length_map, build_segments_length. lia.
Qed.

(** [splrep] returns only for a path of positive length: a path of length
    zero has a table of nans. *)
Lemma fit_heading_positive (wps : WaypointSet) (spl : tck) :
  fit_heading wps = Ok spl -> 0 < total_length wps.
Proof.
  intros Hfit.
  pose proof (np_sum_nonneg _ (lengths_nonneg (build_segments wps))) as Hge.
  fold (total_length wps) in Hge.
  destruct (Req_dec_T (total_length wps) 0) as [Hz | Hnz]; [| lra].
  exfalso. unfold fit_heading in Hfit.
  destruct (splrep_nan (arc_table (path_lengths (build_segments wps)))
              (map heading_offset wps)) as (e & He); [| congruence].
  apply (nth_error_In _ 0). unfold path_lengths.
  rewrite arc_table_nth by lia. f_equal. cbn [firstn np_sum fold_right].
  fold (total_length wps). rewrite Hz. apply ndiv_zero.
Qed.

End CompileFacts.

(** ** The ends of the path *)

Section Endpoints.
Context `{Ext : External} `{Base : !PathGeneratorBase}.

Variable wps : WaypointSet.
Hypothesis Hn : (2 <= length wps)%nat.
Hypothesis Hpos : 0 < total_length wps.

Let lens := map get_length (build_segments wps).

Lemma lens_length : length lens = (length wps - 1)%nat.
Proof. unfold lens. now rewrite length_map, build_segments_length. Qed.

Lemma table_entry (i : nat) :
  (i < length wps)%nat ->
  nth_error (arc_table (path_lengths (build_segments wps))) i
  = Some (Fin (np_sum (firstn i lens) / total_length wps)).
Proof.
  intros Hi. unfold path_lengths. fold lens.
  rewrite arc_table_nth by (rewrite lens_length; lia).
  fold lens. unfold total_length in *. fold lens in Hpos |- *.
  rewrite ndiv_fin by lra. reflexivity.
Qed.

Lemma prefix_le_total (i : nat) : np_sum (firstn i lens) <= total_length wps.
Proof. apply firstn_sum_le_total, lengths_nonneg. Qed.

Lemma prefix_nonneg (i : nat) : 0 <= np_sum (firstn i lens).
Proof. apply np_sum_nonneg, Forall_firstn_nonneg, lengths_nonneg. Qed.

Variable self : LinearInterpolator.
Hypothesis Hsegs : _interp_pos self = Some (build_segments wps).
Hypothesis Htable : _s self = arc_table (path_lengths (build_segments wps)).

Lemma idx_at_0 : get_segment_idx self 0 = 0%nat.
Proof.
  unfold get_segment_idx. rewrite Htable.
  rewrite (first_index_geq_intro 0 _ 0 _ (table_entry 0 ltac:(lia))).
  - reflexivity.
  - apply nleb_fin. simpl. unfold Rdiv. lra.
  - intros j e' Hj. lia.
Qed.

Lemma generate_pos_start (w0 : Waypoint) :
  hd_error wps = Some w0 ->
  generate_pos 0 self = (Ok (Some (vec_of_point (pos w0))), self).
Proof.
  intros Hw0.
  destruct (generate_pos_compiled 0 self wps Hn Hsegs Htable) as [H0 _].
  destruct (H0 idx_at_0) as (seg & Hseg & ->).
  rewrite interpolate_0.
  destruct wps as [| a [| b rest]]; simpl in Hn; try lia.
  simpl in Hw0, Hseg. injection Hw0 as <-. injection Hseg as <-.
  reflexivity.
Qed.

Lemma generate_pos_end (wl : Waypoint) :
  nth_error wps (length wps - 1) = Some wl ->
  generate_pos 1 self = (Ok (Some (vec_of_point (pos wl))), self).
Proof.
  intros Hwl.
  set (n := length wps) in *.
  assert (np_sum (firstn (n - 1) lens) = total_length wps) as Hlast.
  { unfold total_length. fold lens. rewrite firstn_all2; [reflexivity |].
    rewrite lens_length. fold n. lia. }
  (* an index is found: the last entry is 1 *)
  destruct (first_index_geq 1 (_s self)) as [idx |] eqn:Hfind.
  2:{ exfalso.
      pose proof (first_index_geq_none _ _ Hfind) as Hnone.
      pose proof (table_entry (n - 1) ltac:(unfold n; lia)) as He.
      rewrite <- Htable in He. apply nth_error_In in He.
      apply Hnone in He. apply nleb_fin_false in He.
      rewrite Hlast in He. unfold Rdiv in He.
      rewrite Rinv_r in He by lra. lra. }
  assert (get_segment_idx self 1 = idx) as Hidx
      by (unfold get_segment_idx; now rewrite Hfind).
  destruct (first_index_geq_some _ _ _ Hfind) as [(e & He & Hge) Hbefore].
  assert (idx < n)%nat as Hlt.
  { pose proof (compiled_table_length self wps Hn Htable) as Hlen.
    fold n in Hlen. rewrite <- Hlen. apply nth_error_Some. congruence. }
  pose proof (table_entry idx Hlt) as Hentry. rewrite <- Htable in Hentry.
  rewrite Hentry in He. injection He as <-.
  apply nleb_fin in Hge.
  assert (np_sum (firstn idx lens) = total_length wps) as Hfull.
  { pose proof (prefix_le_total idx).
    apply (Rmult_le_compat_r (total_length wps)) in Hge; [| lra].
    unfold Rdiv in Hge. rewrite Rmult_assoc, Rinv_l in Hge by lra. lra. }
  assert (idx <> 0)%nat as Hne.
  { intros ->. simpl in Hfull. lra. }
  destruct (generate_pos_compiled 1 self wps Hn Hsegs Htable) as [_ H1].
  rewrite Hidx in H1.
  destruct (H1 Hne) as (seg & lo & hi & Hseg & Hlo & Hhi & ->).
  pose proof (table_entry (idx - 1) ltac:(lia)) as Hprev.
  rewrite <- Htable in Hprev. rewrite Hprev in Hlo. injection Hlo as <-.
  rewrite Hentry in Hhi. injection Hhi as <-.
  pose proof (Hbefore (idx - 1)%nat _ ltac:(lia) Hprev) as Hsmall.
  apply nleb_fin_false in Hsmall.
  (* the local parameter is 1 *)
  assert (ndiv (nsub (Fin 1) (Fin (np_sum (firstn (idx - 1) lens) / total_length wps)))
               (nsub (Fin (np_sum (firstn idx lens) / total_length wps))
                     (Fin (np_sum (firstn (idx - 1) lens) / total_length wps)))
          = Fin 1) as Hu.
  { simpl nsub. rewrite Hfull.
    replace (total_length wps / total_length wps) with 1
      by (unfold Rdiv; rewrite Rinv_r; lra).
    rewrite ndiv_fin by lra. f_equal. unfold Rdiv at 1. apply Rinv_r. lra. }
  rewrite Hu, interpolate_1.
  (* the segment ends at waypoint idx, which lies where the last one does *)
  destruct (nth_error wps (idx - 1)) as [a |] eqn:Ha;
    [| apply nth_error_None in Ha; lia].
  destruct (nth_error wps idx) as [b |] eqn:Hb;
    [| apply nth_error_None in Hb; fold n in Hb; lia].
  rewrite (build_segments_nth wps (idx - 1) a b Ha) in Hseg
    by (replace (S (idx - 1)) with idx by lia; exact Hb).
  injection Hseg as <-. simpl p_target.
  assert (pos wl = pos b) as ->; [| reflexivity].
  apply (zero_lengths_same_pos (skipn idx wps)).
  - rewrite hd_error_skipn. exact Hb.
  - rewrite build_segments_skipn, <- skipn_map. fold lens.
    apply np_sum_zero.
    + pose proof (lengths_nonneg (build_segments wps)) as Hall. fold lens in Hall.
      rewrite <- (firstn_skipn idx lens) in Hall.
      apply Forall_app in Hall. tauto.
    + pose proof (np_sum_app (firstn idx lens) (skipn idx lens)) as Hsplit.
      rewrite firstn_skipn in Hsplit. unfold total_length in Hfull.
      fold lens in Hfull. lra.
  - apply (nth_error_In _ (n - 1 - idx)).
    rewrite nth_error_skipn.
    replace (idx + (n - 1 - idx))%nat with (n - 1)%nat by lia. exact Hwl.
Qed.

End Endpoints.

(** ** Orientation queries *)

Section OrientationFacts.
Context `{Ext : External} `{Base : !PathGeneratorBase}.

Lemma set_last_rot_twice (q q' : quat) (self : LinearInterpolator) :
  set_last_rot q' (set_last_rot q self) = set_last_rot q' self.
Proof. reflexivity. Qed.

Lemma set_last_rot_same (self : LinearInterpolator) :
  set_last_rot (_last_rot self) self = self.
Proof. now destruct self. Qed.

Lemma clamp_nonpositive (s : R) : s <= 0 -> py_min (py_max 0 s) 1 = 0.
Proof.
  intros Hs. unfold py_max, py_min.
  destruct (Rlt_dec 0 s); [lra |].
  destruct (Rlt_dec 1 0); [lra | reflexivity].
Qed.

Lemma clamp_inside (s : R) : 0 < s <= 1 -> py_min (py_max 0 s) 1 = s.
Proof.
  intros Hs. unfold py_max, py_min.
  destruct (Rlt_dec 0 s); [| lra].
  destruct (Rlt_dec 1 s); [lra | reflexivity].
Qed.

(** Every field but the cursor survives [generate_quat]. *)
Lemma generate_quat_writes_cursor (s : R) (self : LinearInterpolator) :
  exists q, snd (generate_quat s self) = set_last_rot q self.
Proof.
  unfold generate_quat.
  destruct (Req_dec_T (py_min (py_max 0 s) 1) 0); [eexists; reflexivity |].
  set (s' := py_min (py_max 0 s) 1).
  unfold bind at 1.
  pose proof (generate_pos_frame s' self) as F1.
  destruct (generate_pos s' self) as [[this_pos | e] self1];
    simpl in F1; subst self1;
    [| exists (_last_rot self); now rewrite set_last_rot_same].
  unfold bind at 1.
  pose proof (generate_pos_frame (py_max 0 (s' - _s_step self)) self) as F2.
  destruct (generate_pos (py_max 0 (s' - _s_step self)) self)
    as [[last_pos | e] self2]; simpl in F2; subst self2;
    [| exists (_last_rot self); now rewrite set_last_rot_same].
  destruct this_pos as [a |];
    [| exists (_last_rot self); now rewrite set_last_rot_same].
  destruct last_pos as [b |];
    [| exists (_last_rot self); now rewrite set_last_rot_same].
  unfold bind, subscript, ret, get, modify, call_heading.
  cbn [_interp_heading _heading_spline set_last_rot].
  destruct (_interp_heading self); [| eexists; reflexivity].
  destruct (_heading_spline self); eexists; reflexivity.
Qed.

Lemma generate_quat_frame (s : R) (self : LinearInterpolator) :
  snd (generate_quat s self)
  = set_last_rot (_last_rot (snd (generate_quat s self))) self.
Proof.
  destruct (generate_quat_writes_cursor s self) as (q & ->). reflexivity.
Qed.

End OrientationFacts.

(** ** Sampling *)

Lemma Zceil_bounds (r : R) : r <= IZR (Zceil r) < r + 1.
Proof.
  unfold Zceil. rewrite minus_IZR.
  destruct (archimed (- r)) as [H1 H2]. lra.
Qed.

Lemma Zceil_unique (r : R) (k : Z) : r <= IZR k < r + 1 -> Zceil r = k.
Proof.
  intros [H1 H2]. unfold Zceil.
  rewrite <- (tech_up (- r) (1 - k)%Z); [lia | |]; rewrite minus_IZR; lra.
Qed.

Section SamplingFacts.
Context `{Ext : External} `{Base : !PathGeneratorBase}.

Lemma np_arange_samples (step : R) :
  step <> 0 ->
  np_arange 0 (1 + step) step
  = Ok (map (sample_value step) (seq 0 (sample_count step))).
Proof.
  intros Hs. unfold np_arange.
  destruct (Req_dec_T step 0); [contradiction | reflexivity].
Qed.

Lemma sample_loop_frame (l : list R) (self : LinearInterpolator) :
  snd (sample_loop l self) = self.
Proof.
  induction l as [| i l IH]; [reflexivity |].
  cbn [sample_loop]. unfold bind at 1.
  pose proof (generate_pos_frame i self) as F.
  destruct (generate_pos i self) as [[p | e] self1]; simpl in F; subst self1;
    [| reflexivity].
  destruct p as [v |]; unfold bind, call_tolist, ret, raise; [| reflexivity].
  destruct (sample_loop l self) as [[pnts | e] self2]; simpl in IH; subst self2;
    reflexivity.
Qed.

Lemma get_samples_frame (max_time : option R) (step : R)
      (self : LinearInterpolator) :
  snd (get_samples max_time step self) = self.
Proof.
  unfold get_samples.
  destruct (_waypoints self); [| reflexivity].
  destruct (_interp_pos self); [| reflexivity].
  destruct (np_arange 0 (1 + step) step) as [vals | e]; [| reflexivity].
  unfold bind. pose proof (sample_loop_frame vals self) as F.
  destruct (sample_loop vals self) as [[pnts | e] self1]; simpl in F; subst self1;
    reflexivity.
Qed.

(** On a compiled generator the loop returns one point per sample value,
    in order, each built from [generate_pos] at that value. *)
Lemma sample_loop_compiled (l : list R) (self : LinearInterpolator) :
  compiled self ->
  exists pnts,
    sample_loop l self = (Ok pnts, self) /\
    length pnts = length l /\
    forall i s, nth_error l i = Some s ->
      exists v, generate_pos s self = (Ok (Some v), self) /\
                nth_error pnts i = Some (sample_point v).
Proof.
  intros Hc. induction l as [| s0 l (pnts & Hrun & Hlen & Hnth)].
  - exists []. repeat split. intros [| i] s H; discriminate.
  - destruct (generate_pos_returns s0 self Hc) as (v0 & Hv0).
    exists (sample_point v0 :: pnts). split; [| split].
    + cbn [sample_loop]. unfold bind at 1. rewrite Hv0.
      unfold bind, call_tolist, ret. rewrite Hrun. reflexivity.
    + simpl. now rewrite Hlen.
    + intros [| i] s H; simpl in H.
      * injection H as <-. exists v0. now split.
      * apply Hnth. exact H.
Qed.

End SamplingFacts.

(** ** Two concrete paths *)

Lemma arc_table_four (a b c : R) :
  arc_table [0; a; b; c]
  = [ndiv (Fin 0) (Fin (a + b + c)); ndiv (Fin a) (Fin (a + b + c));
     ndiv (Fin (a + b)) (Fin (a + b + c));
     ndiv (Fin (a + b + c)) (Fin (a + b + c))].
Proof.
  unfold arc_table, np_cumsum, np_sum.
  cbn [cumsum_from map fold_right].
  repeat (f_equal; try lra).
Qed.

(** The length of a segment along the x axis. *)
Lemma get_length_x (a b : R) :
  a <= b -> get_length (mkLineSegment (mkPoint a 0 0) (mkPoint b 0 0)) = b - a.
Proof.
  intros Hab. unfold get_length, sqr. cbn [px py pz p_init p_target].
  replace ((b - a) * (b - a) + (0 - 0) * (0 - 0) + (0 - 0) * (0 - 0))
    with ((b - a) * (b - a)) by ring.
  apply sqrt_square. lra.
Qed.

Lemma lengths_line :
  map get_length (build_segments line_path) = [2 - 0; 5 - 2; 10 - 5].
Proof.
  unfold line_path, wp. cbn [build_segments map pos].
  rewrite !get_length_x by lra. reflexivity.
Qed.

Lemma lengths_coincident :
  map get_length (build_segments coincident_path) = [0; 0; 0].
Proof.
  unfold coincident_path, wp. cbn [build_segments map pos].
  now rewrite !get_length_same.
Qed.

Lemma total_length_line : total_length line_path = 10.
Proof.
  unfold total_length. rewrite lengths_line. cbn [np_sum fold_right]. lra.
Qed.

Lemma total_length_coincident : total_length coincident_path = 0.
Proof.
  unfold total_length. rewrite lengths_coincident. cbn [np_sum fold_right]. lra.
Qed.

Lemma compiled_generator_segments (ws : WaypointSet) :
  (2 <= length ws)%nat ->
  _interp_pos (compiled_generator ws) = Some (build_segments ws).
Proof.
  intros Hn. unfold compiled_generator, init_interpolator.
  cbn [new_generator _waypoints].
  destruct (Nat.ltb_spec (num_waypoints ws) 2) as [Hlt | _];
    [unfold num_waypoints in Hlt; lia |].
  destruct (splrep _ _); reflexivity.
Qed.

Lemma compiled_generator_table (ws : WaypointSet) :
  (2 <= length ws)%nat ->
  _s (compiled_generator ws)
  = arc_table (0 :: map get_length (build_segments ws)).
Proof.
  intros Hn. unfold compiled_generator, init_interpolator.
  cbn [new_generator _waypoints].
  destruct (Nat.ltb_spec (num_waypoints ws) 2) as [Hlt | _];
    [unfold num_waypoints in Hlt; lia |].
  destruct (splrep _ _); reflexivity.
Qed.

Lemma compiled_generator_rots (ws : WaypointSet) :
  _last_rot (compiled_generator ws) = QIdentity /\
  _init_rot (compiled_generator ws) = QIdentity.
Proof.
  unfold compiled_generator, init_interpolator.
  cbn [new_generator _waypoints].
  destruct (num_waypoints ws <? 2)%nat; [split; reflexivity |].
  destruct (splrep _ _); split; reflexivity.
Qed.

Lemma arc_table_line :
  arc_table (path_lengths (build_segments line_path))
  = [Fin 0; Fin (1 / 5); Fin (1 / 2); Fin 1].
Proof.
  unfold path_lengths. rewrite lengths_line, arc_table_four.
  rewrite !ndiv_fin by lra.
  repeat (f_equal; try lra).
Qed.

(** On the line [splrep] returns. *)
Lemma fit_heading_line :
  fit_heading line_path
  = Ok (arc_table (path_lengths (build_segments line_path)),
        map heading_offset line_path).
Proof.
  unfold fit_heading. cbn [splrep sym_ext]. unfold sym_splrep.
  rewrite arc_table_line.
  cbn [length Nat.leb existsb is_nan orb]. reflexivity.
Qed.

Lemma compiled_generator_eq :
  init_interpolator (new_generator (Some line_path) None)
  = (Ok true, compiled_generator line_path) /\
  compiled_generator line_path
  = compiled_state (new_generator (Some line_path) None) line_path
      (arc_table (path_lengths (build_segments line_path)),
       map heading_offset line_path).
Proof.
  unfold compiled_generator.
  rewrite (init_interpolator_ok (new_generator (Some line_path) None)
             line_path _ eq_refl ltac:(simpl; lia) fit_heading_line).
  split; reflexivity.
Qed.

Lemma compiled_generator_compiled : compiled (compiled_generator line_path).
Proof.
  destruct compiled_generator_eq as [_ ->].
  apply compiled_state_compiled; [simpl; lia | apply fit_heading_line].
Qed.

Lemma table_line :
  _s (compiled_generator line_path) = [Fin 0; Fin (1 / 5); Fin (1 / 2); Fin 1].
Proof.
  rewrite compiled_generator_table by (simpl; lia).
  apply arc_table_line.
Qed.

Lemma table_coincident :
  _s (compiled_generator coincident_path) = [NaN; NaN; NaN; NaN].
Proof.
  rewrite compiled_generator_table by (simpl; lia).
  rewrite lengths_coincident, arc_table_four.
  replace (0 + 0 + 0) with 0 by lra.
  now rewrite !ndiv_zero.
Qed.

(** Beyond the end of the line the position is extrapolated. *)
Lemma generate_pos_line_beyond :
  generate_pos 2 (compiled_generator line_path)
  = (Ok (Some (mkVec (Fin 20) (Fin 0) (Fin 0))), compiled_generator line_path).
Proof.
  unfold generate_pos, get_segment_idx.
  rewrite compiled_generator_segments by (simpl; lia).
  rewrite table_line. cbn [first_index_geq].
  rewrite (proj2 (nleb_fin_false 2 0)) by lra.
  rewrite (proj2 (nleb_fin_false 2 (1 / 5))) by lra.
  rewrite (proj2 (nleb_fin_false 2 (1 / 2))) by lra.
  rewrite (proj2 (nleb_fin_false 2 1)) by lra.
  cbn [option_map length Nat.sub Nat.eqb].
  unfold bind, getitem, ret. cbn [nth_error].
  cbn [nsub]. rewrite ndiv_fin by lra.
  unfold line_path, wp. cbn [build_segments nth_error pos].
  unfold interpolate, vec_of_point.
  cbn [p_init p_target px py pz vx vy vz nsub nmul nadd].
  do 2 f_equal. f_equal. f_equal; f_equal; field.
Qed.

(** With every entry of the table nan, no index is found and the local
    parameter is nan. *)
Lemma generate_pos_coincident (s : R) :
  generate_pos s (compiled_generator coincident_path)
  = (Ok (Some (mkVec NaN NaN NaN)), compiled_generator coincident_path).
Proof.
  unfold generate_pos, get_segment_idx.
  rewrite compiled_generator_segments by (simpl; lia).
  rewrite table_coincident. reflexivity.
Qed.

Lemma sample_count_2 : sample_count 2 = 2%nat.
Proof.
  unfold sample_count. rewrite (Zceil_unique _ 2); [reflexivity | lra].
Qed.

Lemma sample_count_tenth : sample_count (1 / 10) = 11%nat.
Proof.
  unfold sample_count. rewrite (Zceil_unique _ 11); [reflexivity |].
  replace ((1 + 1 / 10 - 0) / (1 / 10)) with 11 by field. lra.
Qed.

(** * The claims *)

Section Claims.
Context `{Ext : External} `{Base : !PathGeneratorBase}.

(** X18.  After a successful [init_interpolator], [generate_pos 0] is the
    position of the first waypoint and [generate_pos 1] the position of
    the last one. *)
Theorem endpoints_after_init
    (self self' : LinearInterpolator) (wps : WaypointSet) (w0 wl : Waypoint) :
  _waypoints self = Some wps ->
  init_interpolator self = (Ok true, self') ->
  hd_error wps = Some w0 ->
  nth_error wps (num_waypoints wps - 1) = Some wl ->
  generate_pos 0 self' = (Ok (Some (vec_of_point (pos w0))), self') /\
  generate_pos 1 self' = (Ok (Some (vec_of_point (pos wl))), self').
Proof.
  unfold num_waypoints. intros Hw Hinit Hw0 Hwl.
  apply init_interpolator_inv in Hinit.
  destruct Hinit as [(_ & wps' & spl & Hw' & Hn & Hfit & ->) | (Hb & _)];
    [| discriminate].
  rewrite Hw in Hw'. injection Hw' as <-.
  pose proof (fit_heading_positive wps spl Hfit) as Hlen.
  split.
  - now apply (generate_pos_start wps Hn Hlen).
  - now apply (generate_pos_end wps Hn Hlen).
Qed.

(** With two or three waypoints [init_interpolator] raises the
    [TypeError] of [splrep], after it has assigned the segments and the
    table. *)
Lemma init_interpolator_few (self : LinearInterpolator) (wps : WaypointSet) :
  _waypoints self = Some wps ->
  (2 <= num_waypoints wps <= 3)%nat ->
  init_interpolator self = (Raise TypeError, raised_state self wps).
Proof.
  unfold num_waypoints. intros Hw Hn.
  apply init_interpolator_raises; [exact Hw | lia |].
  unfold fit_heading. apply splrep_degree.
  rewrite arc_table_length. unfold path_lengths. simpl.
  rewrite length_map, build_segments_length. lia.
Qed.

(** C1.  [init_interpolator] does not return [True] for every set of at
    least two waypoints.  With two or three waypoints it passes the guard
    [num_waypoints < 2], assigns the segments, the table, the duration and
    the start time, and then raises the [TypeError] of [splrep], which
    needs more points than its degree 3.  It raises as well when all the
    waypoints are at the same place, the table being nan.  In the state
    left by the raise the segments are those of the waypoints, and the
    heading spline and the heading function are what they were. *)
Theorem init_interpolator_two_waypoints
    (self : LinearInterpolator) (wps : WaypointSet) :
  _waypoints self = Some wps ->
  (2 <= num_waypoints wps)%nat ->
  ((num_waypoints wps <= 3)%nat ->
     init_interpolator self = (Raise TypeError, raised_state self wps)) /\
  (total_length wps = 0 ->
     exists e, init_interpolator self = (Raise e, raised_state self wps)) /\
  _interp_pos (raised_state self wps) = Some (build_segments wps) /\
  _s (raised_state self wps) = arc_table (path_lengths (build_segments wps)) /\
  _heading_spline (raised_state self wps) = _heading_spline self /\
  _interp_heading (raised_state self wps) = _interp_heading self.
Proof.
  intros Hw Hn.
  split; [intros H3; apply init_interpolator_few; [exact Hw | lia] |].
  split; [| repeat split].
  intros Hzero. unfold num_waypoints in Hn.
  destruct (fit_heading wps) as [spl | e] eqn:Hfit.
  - apply fit_heading_positive in Hfit. lra.
  - exists e. now apply init_interpolator_raises.
Qed.

(** C2.  After a successful [init_interpolator] on [n] waypoints the
    arc-length table has exactly [n] entries, its first entry is 0, its
    last entry is 1, it is non-decreasing, and entry [i] is the sum of the
    lengths of the segments [0 .. i-1] divided by the total length of the
    path, which is positive. *)
Theorem arc_table_invariant
    (self self' : LinearInterpolator) (wps : WaypointSet) :
  _waypoints self = Some wps ->
  init_interpolator self = (Ok true, self') ->
  length (_s self') = num_waypoints wps /\
  nth_error (_s self') 0 = Some (Fin 0) /\
  nth_error (_s self') (num_waypoints wps - 1) = Some (Fin 1) /\
  (forall i j a b, (i <= j)%nat ->
     nth_error (_s self') i = Some a -> nth_error (_s self') j = Some b ->
     nle a b) /\
  0 < total_length wps /\
  (forall i, (i < num_waypoints wps)%nat ->
     nth_error (_s self') i
     = Some (Fin (np_sum (firstn i (map get_length (build_segments wps)))
                  / total_length wps))).
Proof.
  unfold num_waypoints. intros Hw Hinit.
  apply init_interpolator_inv in Hinit.
  destruct Hinit as [(_ & wps' & spl & Hw' & Hn & Hfit & ->) | (Hb & _)];
    [| discriminate].
  rewrite Hw in Hw'. injection Hw' as <-.
  pose proof (fit_heading_positive wps spl Hfit) as Hpos.
  cbn [compiled_state _s].
  assert (length (map get_length (build_segments wps)) = (length wps - 1)%nat)
    as Hlens by now rewrite length_map, build_segments_length.
  split; [| split; [| split; [| split; [| split]]]].
  - rewrite arc_table_length. unfold path_lengths. simpl. rewrite Hlens. lia.
  - rewrite (table_entry wps Hn Hpos 0) by lia.
    simpl firstn. simpl np_sum. do 2 f_equal. unfold Rdiv. ring.
  - rewrite (table_entry wps Hn Hpos (length wps - 1)) by lia.
    rewrite firstn_all2 by (rewrite Hlens; lia).
    do 2 f_equal. unfold total_length, Rdiv in *. apply Rinv_r. lra.
  - intros i j a b Hij Ha Hb.
    assert (j < length wps)%nat as Hj.
    { assert (length (arc_table (path_lengths (build_segments wps)))
              = length wps) as <-
        by (rewrite arc_table_length; unfold path_lengths; simpl;
            rewrite Hlens; lia).
      apply nth_error_Some. congruence. }
    rewrite (table_entry wps Hn Hpos i) in Ha by lia.
    rewrite (table_entry wps Hn Hpos j) in Hb by lia.
    injection Ha as <-. injection Hb as <-. simpl.
    pose proof (firstn_sum_le (map get_length (build_segments wps)) i j
                  (lengths_nonneg _) Hij) as Hle.
    unfold Rdiv. apply Rmult_le_compat_r; [| exact Hle].
    left. now apply Rinv_0_lt_compat.
  - exact Hpos.
  - intros i Hi. apply (table_entry wps Hn Hpos i Hi).
Qed.

(** C3.  On a compiled generator, for every [s], [generate_pos s] takes
    [idx = get_segment_idx s]; when [idx] is 0 it returns segment 0
    interpolated at the local parameter 0, which is the start of the path;
    otherwise it returns segment [idx - 1] interpolated at
    [(s - table[idx-1]) / (table[idx] - table[idx-1])]. *)
Theorem generate_pos_by_segment (self : LinearInterpolator) (s : R) :
  compiled self ->
  exists segs wps,
    _interp_pos self = Some segs /\ _waypoints self = Some wps /\
    let idx := get_segment_idx self s in
    (idx = 0%nat ->
     exists seg w0,
       nth_error segs 0 = Some seg /\ hd_error wps = Some w0 /\
       interpolate seg (Fin 0) = vec_of_point (pos w0) /\
       generate_pos s self = (Ok (Some (interpolate seg (Fin 0))), self)) /\
    (idx <> 0%nat ->
     exists seg lo hi,
       nth_error segs (idx - 1) = Some seg /\
       nth_error (_s self) (idx - 1) = Some lo /\
       nth_error (_s self) idx = Some hi /\
       generate_pos s self
       = (Ok (Some (interpolate seg (ndiv (nsub (Fin s) lo) (nsub hi lo)))),
          self)).
Proof.
  intros (wps & Hn & Hw & Hpos & Hs & _).
  exists (build_segments wps), wps. split; [exact Hpos | split; [exact Hw |]].
  destruct (generate_pos_compiled s self wps Hn Hpos Hs) as [H0 H1].
  split; [| exact H1].
  intros Hi. destruct (H0 Hi) as (seg & Hseg & Hrun).
  destruct wps as [| a [| b rest]]; simpl in Hn; try lia.
  exists seg, a. repeat split; try assumption.
  simpl in Hseg. injection Hseg as <-. apply interpolate_0.
Qed.

(** What [generate_quat] computes and writes for an argument whose clamped
    value is not 0. *)
Lemma generate_quat_value (self : LinearInterpolator) (s : R) :
  compiled self -> 0 < s <= 1 ->
  exists this_pos last_pos spl,
    generate_pos s self = (Ok (Some this_pos), self) /\
    generate_pos (py_max 0 (s - _s_step self)) self
    = (Ok (Some last_pos), self) /\
    _heading_spline self = Some spl /\
    generate_quat s self
    = (Ok (quaternion_multiply
             (_compute_rot_quat self
                (nsub (vx this_pos) (vx last_pos))
                (nsub (vy this_pos) (vy last_pos))
                (nsub (vz this_pos) (vz last_pos)))
             (quaternion_about_axis (splev s spl) (mkPoint 0 0 1))),
       set_last_rot
         (quaternion_multiply
            (_compute_rot_quat self
               (nsub (vx this_pos) (vx last_pos))
               (nsub (vy this_pos) (vy last_pos))
               (nsub (vz this_pos) (vz last_pos)))
            (quaternion_about_axis (splev s spl) (mkPoint 0 0 1)))
         self).
Proof.
  intros Hc Hs.
  destruct (generate_pos_returns s self Hc) as (this_pos & Hthis).
  destruct (generate_pos_returns (py_max 0 (s - _s_step self)) self Hc)
    as (last_pos & Hlast).
  destruct Hc as (wps & _ & _ & _ & _ & Hh & spl & Hspl & _).
  exists this_pos, last_pos, spl.
  split; [exact Hthis | split; [exact Hlast | split; [exact Hspl |]]].
  unfold generate_quat.
  rewrite (clamp_inside s Hs).
  destruct (Req_dec_T s 0) as [E | _]; [lra |].
  unfold bind at 1. rewrite Hthis.
  unfold bind at 1. rewrite Hlast.
  unfold bind, subscript, ret, get, modify, call_heading.
  cbn [_interp_heading _heading_spline set_last_rot].
  rewrite Hh, Hspl. reflexivity.
Qed.

(** C4.  On a compiled generator, for every [s] in (0, 1], [generate_quat s]
    returns the look-direction quaternion, computed from the difference
    between [generate_pos s] and [generate_pos (max 0 (s - step))],
    multiplied on the right by the quaternion of the rotation about the
    axis (0, 0, 1) by the value of the heading spline at [s]; in the state
    it leaves the cursor [_last_rot] is exactly this product, and every
    other field is as before. *)
Theorem generate_quat_composes (self : LinearInterpolator) (s : R) :
  compiled self -> 0 < s <= 1 ->
  exists this_pos last_pos spl,
    generate_pos s self = (Ok (Some this_pos), self) /\
    generate_pos (py_max 0 (s - _s_step self)) self
    = (Ok (Some last_pos), self) /\
    _heading_spline self = Some spl /\
    let look := _compute_rot_quat self
                  (nsub (vx this_pos) (vx last_pos))
                  (nsub (vy this_pos) (vy last_pos))
                  (nsub (vz this_pos) (vz last_pos)) in
    let q := quaternion_multiply look
               (quaternion_about_axis (splev s spl) (mkPoint 0 0 1)) in
    generate_quat s self = (Ok q, set_last_rot q self) /\
    fst (generate_quat s self) = Ok q /\
    _last_rot (snd (generate_quat s self)) = q /\
    _init_rot (snd (generate_quat s self)) = _init_rot self /\
    _waypoints (snd (generate_quat s self)) = _waypoints self /\
    _interp_pos (snd (generate_quat s self)) = _interp_pos self /\
    _s (snd (generate_quat s self)) = _s self /\
    _heading_spline (snd (generate_quat s self)) = _heading_spline self.
Proof.
  intros Hc Hs.
  destruct (generate_quat_value self s Hc Hs)
    as (this_pos & last_pos & spl & Hthis & Hlast & Hspl & Hrun).
  exists this_pos, last_pos, spl.
  split; [exact Hthis | split; [exact Hlast | split; [exact Hspl |]]].
  intros look q. rewrite Hrun. repeat split.
Qed.

(** C5.  For every [s <= 0] (clamped to 0 first), [generate_quat s]
    returns the initial orientation [_init_rot], whatever the path; in the
    state it leaves, the cursor [_last_rot] is the initial orientation,
    whatever it was before, and every other field is as before. *)
Theorem generate_quat_at_start (self : LinearInterpolator) (s : R) :
  s <= 0 ->
  generate_quat s self
  = (Ok (_init_rot self), set_last_rot (_init_rot self) self) /\
  fst (generate_quat s self) = Ok (_init_rot self) /\
  _last_rot (snd (generate_quat s self)) = _init_rot self /\
  _init_rot (snd (generate_quat s self)) = _init_rot self /\
  _waypoints (snd (generate_quat s self)) = _waypoints self /\
  _interp_pos (snd (generate_quat s self)) = _interp_pos self /\
  _s (snd (generate_quat s self)) = _s self /\
  _heading_spline (snd (generate_quat s self)) = _heading_spline self.
Proof.
  intros Hs.
  assert (generate_quat s self
          = (Ok (_init_rot self), set_last_rot (_init_rot self) self)) as Hrun.
  { unfold generate_quat. rewrite (clamp_nonpositive s Hs).
    destruct (Req_dec_T 0 0) as [_ | E]; [reflexivity | now elim E]. }
  rewrite Hrun. repeat split.
Qed.

(** C7, as amended.  When the waypoint set is absent or has fewer than two
    waypoints, [init_interpolator] returns [False] and leaves the
    generator as it was, so a generator that was not compiled stays not
    compiled (and one compiled before keeps what it had); and on a
    generator that is not compiled [generate_pos] and [get_samples] return
    [None]. *)
Theorem init_interpolator_rejects (self : LinearInterpolator) :
  (_waypoints self = None \/
   exists wps, _waypoints self = Some wps /\ (num_waypoints wps < 2)%nat) ->
  (exists self',
     init_interpolator self = (Ok false, self') /\ self' = self /\
     (_interp_pos self = None -> _interp_pos self' = None)) /\
  (forall g : LinearInterpolator, _interp_pos g = None ->
     forall (s : R) (max_time : option R) (step : R),
       generate_pos s g = (Ok None, g) /\
       get_samples max_time step g = (Ok None, g)).
Proof.
  intros H. split.
  - exists self. split; [| split; [reflexivity | auto]].
    now apply init_interpolator_fails.
  - intros g Hg s max_time step. split.
    + now apply generate_pos_not_compiled.
    + unfold get_samples. rewrite Hg. now destruct (_waypoints g).
Qed.

(** C10.  [generate_pos] and [get_samples] leave the whole generator state
    as it was, the cursor [_last_rot], the segments, the arc-length table
    and the heading spline included; [generate_quat] changes no field but
    the cursor [_last_rot].  This holds for every generator, compiled or
    not. *)
Theorem queries_frame
    (self : LinearInterpolator) (s : R) (max_time : option R) (step : R) :
  snd (generate_pos s self) = self /\
  snd (get_samples max_time step self) = self /\
  snd (generate_quat s self)
  = set_last_rot (_last_rot (snd (generate_quat s self))) self /\
  _interp_pos (snd (generate_quat s self)) = _interp_pos self /\
  _s (snd (generate_quat s self)) = _s self /\
  _heading_spline (snd (generate_quat s self)) = _heading_spline self.
Proof.
  split; [apply generate_pos_frame |].
  split; [apply get_samples_frame |].
  pose proof (generate_quat_frame s self) as F.
  split; [exact F |].
  rewrite F. repeat split.
Qed.

End Claims.

Section SamplingClaim.
Context `{Ext : External} `{Base : !PathGeneratorBase}.

Lemma sample_count_bounds (step : R) :
  0 < step ->
  1 + step <= INR (sample_count step) * step < 1 + step + step.
Proof.
  intros Hs. unfold sample_count.
  set (r := (1 + step - 0) / step).
  assert (r * step = 1 + step) as Hr by (unfold r; field; lra).
  destruct (Zceil_bounds r) as [H1 H2].
  assert (1 < r) as Hr1.
  { apply (Rmult_lt_reg_r step); [exact Hs |]. lra. }
  assert (0 <= Zceil r)%Z as Hz by (apply le_IZR; lra).
  rewrite INR_IZR_INZ, Z2Nat.id by exact Hz.
  split.
  - rewrite <- Hr. apply Rmult_le_compat_r; lra.
  - replace (1 + step + step) with ((r + 1) * step) by lra.
    apply Rmult_lt_compat_r; lra.
Qed.

(** C6, as amended.  On a compiled generator and for every [step > 0],
    [get_samples max_time step] returns one point per value of
    [np.arange(0, 1 + step, step)], that is at [s = 0, step, 2 step, ...]
    up to and including the first value that is at least 1; each value is
    passed to [generate_pos] as it is, the last one too when it exceeds 1;
    each point has timestamp 0, the position [generate_pos] returned, and
    the orientation an empty [TrajectoryPoint()] has.  With [step = 0.1]
    there are 11 points, from [s = 0] to [s = 1]. *)
Theorem get_samples_values
    (self : LinearInterpolator) (max_time : option R) (step : R) :
  compiled self -> 0 < step ->
  (exists pnts,
     get_samples max_time step self = (Ok (Some pnts), self) /\
     length pnts = sample_count step /\
     forall i, (i < sample_count step)%nat ->
       exists v p,
         generate_pos (sample_value step i) self = (Ok (Some v), self) /\
         nth_error pnts i = Some p /\
         pnt_t p = 0 /\ pnt_pos p = tolist v /\
         pnt_rotq p = pnt_rotq TrajectoryPoint_new) /\
  (forall i, (S i < sample_count step)%nat -> sample_value step i < 1) /\
  (forall i, S i = sample_count step ->
     1 <= sample_value step i < 1 + step) /\
  (sample_count (1 / 10) = 11%nat /\
   sample_value (1 / 10) 0 = 0 /\ sample_value (1 / 10) 10 = 1).
Proof.
  intros Hc Hstep.
  pose proof (sample_count_bounds step Hstep) as [Hlo Hhi].
  split; [| split; [| split]].
  - destruct (sample_loop_compiled
                (map (sample_value step) (seq 0 (sample_count step))) self Hc)
      as (pnts & Hrun & Hlen & Hnth).
    exists pnts. split; [| split].
    + destruct Hc as (wps & _ & Hw & Hpos & _).
      unfold get_samples. rewrite Hw, Hpos.
      rewrite np_arange_samples by lra.
      unfold bind. rewrite Hrun. reflexivity.
    + now rewrite Hlen, length_map, length_seq.
    + intros i Hi.
      destruct (Hnth i (sample_value step i)) as (v & Hv & Hp).
      { rewrite nth_error_map, nth_error_seq.
        destruct (Nat.ltb_spec i (sample_count step)); [reflexivity | lia]. }
      exists v, (sample_point v). repeat split; assumption.
  - intros i Hi. unfold sample_value.
    assert (INR i + 2 <= INR (sample_count step)) as Hle.
    { replace (INR i + 2) with (INR (S (S i)))
        by (rewrite !S_INR; lra).
      apply le_INR. lia. }
    apply (Rmult_le_compat_r step) in Hle; lra.
  - intros i Hi. unfold sample_value. rewrite <- Hi, S_INR in Hlo, Hhi. lra.
  - split; [apply sample_count_tenth |].
    unfold sample_value. simpl INR. split; lra.
Qed.

End SamplingClaim.

Section FailureClaims.
Context `{Ext : External} `{Base : !PathGeneratorBase}.

(** On a generator that is not compiled, [generate_pnt] calls [tolist] on
    the [None] that [generate_pos] returned. *)
Lemma generate_pnt_not_compiled (self : LinearInterpolator) (s t : R) :
  _interp_pos self = None ->
  generate_pnt s t self = (Raise AttributeError, self).
Proof.
  intros H. unfold generate_pnt, bind.
  rewrite (generate_pos_not_compiled s self H). reflexivity.
Qed.

(** [get_samples] with a zero step raises in [np.arange]. *)
Lemma get_samples_zero_step (self : LinearInterpolator) (max_time : option R) :
  compiled self ->
  get_samples max_time 0 self = (Raise ZeroDivisionError, self).
Proof.
  intros (wps & _ & Hw & Hpos & _). unfold get_samples, np_arange.
  rewrite Hw, Hpos.
  destruct (Req_dec_T 0 0) as [_ | E]; [reflexivity | now elim E].
Qed.

(** The duration after [init_interpolator] on at least two waypoints,
    whether [splrep] then returns or raises: the one that was set, or the
    total length over the mean speed when none was set. *)
Lemma init_interpolator_duration (self : LinearInterpolator) (wps : WaypointSet) :
  _waypoints self = Some wps -> (2 <= length wps)%nat ->
  _duration (snd (init_interpolator self))
  = match _duration self with
    | None => Some (ndiv (Fin (total_length wps))
                         (np_mean (map max_forward_speed wps)))
    | Some d => Some d
    end /\
  fst (init_interpolator self) <> Ok false /\
  (forall spl, fit_heading wps = Ok spl ->
     fst (init_interpolator self) = Ok true).
Proof.
  intros Hw Hn.
  assert (np_sum (path_lengths (build_segments wps)) = total_length wps)
    as Hsum by (unfold total_length, path_lengths; simpl; lra).
  destruct (fit_heading wps) as [spl | e] eqn:Hfit.
  - rewrite (init_interpolator_ok self wps spl Hw Hn Hfit).
    cbn [fst snd compiled_state _duration]. rewrite Hsum.
    split; [reflexivity | split; [discriminate | reflexivity]].
  - rewrite (init_interpolator_raises self wps e Hw Hn Hfit).
    cbn [fst snd raised_state _duration]. rewrite Hsum.
    split; [reflexivity | split; [discriminate | intros spl H; discriminate]].
Qed.

(** C9, as amended.  In [set_thruster_state.py] a duration of zero, given
    or left at its default, raises [RuntimeError], and a negative duration
    is accepted, logged as ['Inf.'] and never followed by the return to the
    previous state.  [init_interpolator] checks no duration: on at least
    two waypoints it never returns [False], it keeps the duration that is
    set, zero and negative ones too, computes one only when none is set,
    and returns [True] whenever [splrep] returns. *)
Theorem duration_handling :
  (SetThrusterState.read_duration (Some 0) = Raise RuntimeError /\
   SetThrusterState.read_duration None = Raise RuntimeError) /\
  (forall d : R, d < 0 ->
     SetThrusterState.read_duration (Some d) = Ok d /\
     SetThrusterState.log_duration d = SetThrusterState.Inf /\
     SetThrusterState.returns_to_previous_state d = false) /\
  (forall (self : LinearInterpolator) (wps : WaypointSet) (d : num),
     _waypoints self = Some wps -> (2 <= num_waypoints wps)%nat ->
     _duration self = Some d ->
     _duration (snd (init_interpolator self)) = Some d /\
     fst (init_interpolator self) <> Ok false /\
     (forall spl, fit_heading wps = Ok spl ->
        fst (init_interpolator self) = Ok true)) /\
  (forall (self : LinearInterpolator) (wps : WaypointSet),
     _waypoints self = Some wps -> (2 <= num_waypoints wps)%nat ->
     _duration self = None ->
     _duration (snd (init_interpolator self))
     = Some (ndiv (Fin (total_length wps))
                  (np_mean (map max_forward_speed wps))) /\
     fst (init_interpolator self) <> Ok false /\
     (forall spl, fit_heading wps = Ok spl ->
        fst (init_interpolator self) = Ok true)).
Proof.
  unfold SetThrusterState.read_duration, SetThrusterState.log_duration,
    SetThrusterState.returns_to_previous_state, num_waypoints.
  split; [| split; [| split]].
  - destruct (Req_dec_T 0 0) as [_ | E]; [now split | now elim E].
  - intros d Hd.
    destruct (Req_dec_T d 0); [lra |].
    destruct (Rlt_dec d 0); [| lra].
    destruct (Rlt_dec 0 d); [lra | repeat split].
  - intros self wps d Hw Hn Hd.
    pose proof (init_interpolator_duration self wps Hw Hn) as H.
    now rewrite Hd in H.
  - intros self wps Hw Hn Hd.
    pose proof (init_interpolator_duration self wps Hw Hn) as H.
    now rewrite Hd in H.
Qed.

End FailureClaims.

(** ** The claims at concrete generators *)

(** C8: on a generator that has no waypoints and is not compiled,
    [generate_pos] and [get_samples] return [None], and [generate_pnt]
    raises [AttributeError]: it does not report the failure by an absent
    result. *)
Theorem generate_pnt_raises :
  generate_pos (1 / 2) (new_generator None None)
  = (Ok None, new_generator None None) /\
  get_samples None (1 / 10) (new_generator None None)
  = (Ok None, new_generator None None) /\
  generate_pnt (1 / 2) 0 (new_generator None None)
  = (Raise AttributeError, new_generator None None).
Proof.
  split; [| split].
  - now apply generate_pos_not_compiled.
  - reflexivity.
  - now apply generate_pnt_not_compiled.
Qed.

Lemma generate_pos_line_start :
  generate_pos 0 (compiled_generator line_path)
  = (Ok (Some (mkVec (Fin 0) (Fin 0) (Fin 0))), compiled_generator line_path).
Proof.
  change (mkVec (Fin 0) (Fin 0) (Fin 0)) with (vec_of_point (pos (wp 0 0 0))).
  apply (generate_pos_start line_path).
  - simpl; lia.
  - rewrite total_length_line. lra.
  - apply compiled_generator_segments. simpl; lia.
  - apply compiled_generator_table. simpl; lia.
  - reflexivity.
Qed.

Lemma generate_pos_line_end :
  generate_pos 1 (compiled_generator line_path)
  = (Ok (Some (mkVec (Fin 10) (Fin 0) (Fin 0))), compiled_generator line_path).
Proof.
  change (mkVec (Fin 10) (Fin 0) (Fin 0)) with (vec_of_point (pos (wp 10 0 0))).
  apply (generate_pos_end line_path).
  - simpl; lia.
  - rewrite total_length_line. lra.
  - apply compiled_generator_segments. simpl; lia.
  - apply compiled_generator_table. simpl; lia.
  - reflexivity.
Qed.

(** C6, counterexample: with [step = 2] on the line that ends at
    (10,0,0) the samples are taken at [s = 0] and [s = 2]; the second point
    lies at (20,0,0), the position extrapolated at [s = 2], and not at
    (10,0,0), the position at [s = 1]. *)
Lemma get_samples_not_clamped :
  fst (get_samples None 2 (compiled_generator line_path))
  = Ok (Some [sample_point (mkVec (Fin 0) (Fin 0) (Fin 0));
              sample_point (mkVec (Fin 20) (Fin 0) (Fin 0))]) /\
  fst (generate_pos 1 (compiled_generator line_path))
  = Ok (Some (mkVec (Fin 10) (Fin 0) (Fin 0))) /\
  sample_point (mkVec (Fin 20) (Fin 0) (Fin 0))
  <> sample_point (mkVec (Fin 10) (Fin 0) (Fin 0)).
Proof.
  split; [| split].
  - destruct compiled_generator_compiled as (wps & _ & Hw & Hp & _).
    unfold get_samples. rewrite Hw, Hp.
    rewrite np_arange_samples by lra. rewrite sample_count_2.
    cbn [seq map].
    replace (sample_value 2 0) with 0 by (unfold sample_value; simpl; lra).
    replace (sample_value 2 1) with 2 by (unfold sample_value; simpl; lra).
    cbn [sample_loop]. unfold bind.
    rewrite generate_pos_line_start. cbn [call_tolist ret].
    rewrite generate_pos_line_beyond. reflexivity.
  - now rewrite generate_pos_line_end.
  - unfold sample_point, set_pnt_t, set_pnt_pos, tolist. simpl.
    intros H. injection H as H. lra.
Qed.

(** C9, counterexample: a generator whose duration is set to zero compiles;
    [init_interpolator] returns [True] and the duration stays zero. *)
Lemma init_interpolator_zero_duration :
  fst (init_interpolator (new_generator (Some line_path) (Some (Fin 0))))
  = Ok true /\
  _duration (snd (init_interpolator
                    (new_generator (Some line_path) (Some (Fin 0)))))
  = Some (Fin 0).
Proof.
  rewrite (init_interpolator_ok
             (new_generator (Some line_path) (Some (Fin 0))) line_path _
             eq_refl ltac:(simpl; lia) fit_heading_line).
  split; reflexivity.
Qed.

(** ** The claims with hypotheses, applied *)

Lemma line_path_positive : 0 < total_length line_path.
Proof. rewrite total_length_line. lra. Defined.

Lemma line_path_compiled : compiled (compiled_generator line_path).
Proof. exact compiled_generator_compiled. Defined.

(** C1 on a new generator holding the two waypoints (0,0,0) and
    (10,0,0): [init_interpolator] raises [TypeError] and leaves one segment
    and no heading spline; and on four waypoints at the same place, where
    it raises as well. *)
Lemma init_interpolator_two_waypoints_new :
  (2 <= num_waypoints two_point_path)%nat /\
  init_interpolator (new_generator (Some two_point_path) None)
  = (Raise TypeError,
     raised_state (new_generator (Some two_point_path) None) two_point_path) /\
  _interp_pos (raised_state (new_generator (Some two_point_path) None)
                 two_point_path)
  = Some [mkLineSegment (mkPoint 0 0 0) (mkPoint 10 0 0)] /\
  _heading_spline (raised_state (new_generator (Some two_point_path) None)
                     two_point_path) = None /\
  (exists e,
     fst (init_interpolator (new_generator (Some coincident_path) None))
     = Raise e).
Proof.
  destruct (init_interpolator_two_waypoints
              (new_generator (Some two_point_path) None) two_point_path
              eq_refl (le_n 2)) as (Hraise & _ & Hsegs & _ & Hspl & _).
  destruct (init_interpolator_two_waypoints
              (new_generator (Some coincident_path) None) coincident_path
              eq_refl (le_S _ _ (le_S _ _ (le_n 2)))) as (_ & Hnan & _).
  split; [exact (le_n 2) |].
  split; [apply Hraise; simpl; lia |].
  split; [exact Hsegs | split; [exact Hspl |]].
  destruct (Hnan total_length_coincident) as (e & He).
  exists e. now rewrite He.
Defined.

(** X18 on the line from (0,0,0) through (2,0,0) and (5,0,0) to
    (10,0,0). *)
Lemma endpoints_after_init_line :
  generate_pos 0 (compiled_generator line_path)
  = (Ok (Some (vec_of_point (pos (wp 0 0 0)))), compiled_generator line_path) /\
  generate_pos 1 (compiled_generator line_path)
  = (Ok (Some (vec_of_point (pos (wp 10 0 0)))), compiled_generator line_path).
Proof.
  apply (endpoints_after_init
           (new_generator (Some line_path) None) (compiled_generator line_path)
           line_path (wp 0 0 0) (wp 10 0 0)).
  - reflexivity.
  - exact (proj1 compiled_generator_eq).
  - reflexivity.
  - reflexivity.
Defined.

(** C2 on the same line: four entries, from 0 to 1. *)
Lemma arc_table_invariant_line :
  length (_s (compiled_generator line_path)) = 4%nat /\
  nth_error (_s (compiled_generator line_path)) 0 = Some (Fin 0) /\
  nth_error (_s (compiled_generator line_path)) 3 = Some (Fin 1).
Proof.
  destruct (arc_table_invariant
              (new_generator (Some line_path) None)
              (compiled_generator line_path) line_path eq_refl
              (proj1 compiled_generator_eq))
    as (Hlen & H0 & H1 & _).
  split; [exact Hlen | split; [exact H0 | exact H1]].
Defined.

(** C3 on the same line at [s = 1/2]. *)
Lemma generate_pos_by_segment_line :
  exists v,
    generate_pos (1 / 2) (compiled_generator line_path)
    = (Ok (Some v), compiled_generator line_path).
Proof.
  destruct (generate_pos_by_segment (compiled_generator line_path) (1 / 2)
              line_path_compiled)
    as (segs & wps & _ & _ & H0 & H1).
  destruct (Nat.eq_dec (get_segment_idx (compiled_generator line_path) (1 / 2)) 0)
    as [E | E].
  - destruct (H0 E) as (seg & w0 & _ & _ & _ & H). eexists. exact H.
  - destruct (H1 E) as (seg & lo & hi & _ & _ & _ & H). eexists. exact H.
Defined.

(** C4 on the same line at [s = 1/2]: the cursor, the identity before, is
    the returned product afterwards. *)
Lemma generate_quat_composes_line :
  exists q,
    fst (generate_quat (1 / 2) (compiled_generator line_path)) = Ok q /\
    _last_rot (snd (generate_quat (1 / 2) (compiled_generator line_path))) = q /\
    _last_rot (compiled_generator line_path) = QIdentity /\
    q <> QIdentity.
Proof.
  destruct (generate_quat_composes (compiled_generator line_path) (1 / 2)
              line_path_compiled ltac:(lra))
    as (this_pos & last_pos & spl & _ & _ & _ & H).
  cbv zeta in H. destruct H as (_ & Hq & Hlast & _).
  eexists. split; [exact Hq | split; [exact Hlast | split]].
  - apply compiled_generator_rots.
  - discriminate.
Defined.

(** C5 on the compiled line, at [s = -1], with a look direction in the
    cursor before the call and the initial orientation after it. *)
Lemma generate_quat_at_start_turned :
  compiled turned_generator /\
  _last_rot turned_generator = QLook (Fin 1) (Fin 0) (Fin 0) /\
  _init_rot turned_generator = QIdentity /\
  fst (generate_quat (-1) turned_generator) = Ok QIdentity /\
  _last_rot (snd (generate_quat (-1) turned_generator)) = QIdentity.
Proof.
  destruct (generate_quat_at_start turned_generator (-1) ltac:(lra))
    as (_ & Hq & Hlast & _).
  assert (_init_rot turned_generator = QIdentity) as Hinit
      by apply compiled_generator_rots.
  rewrite Hinit in Hq, Hlast.
  split; [| split; [reflexivity | split; [exact Hinit | split; assumption]]].
  destruct line_path_compiled as (wps & Hc). exists wps. exact Hc.
Defined.

(** C6 on the same line with [step = 0.1]: eleven points. *)
Lemma get_samples_values_line :
  exists pnts,
    get_samples None (1 / 10) (compiled_generator line_path)
    = (Ok (Some pnts), compiled_generator line_path) /\
    length pnts = 11%nat.
Proof.
  destruct (get_samples_values (compiled_generator line_path) None (1 / 10)
              line_path_compiled ltac:(lra))
    as ((pnts & Hrun & Hlen & _) & _ & _ & (Hcount & _)).
  exists pnts. split; [exact Hrun | now rewrite Hlen].
Defined.

(** C7 on a generator holding a single waypoint. *)
Lemma init_interpolator_rejects_single :
  exists self',
    init_interpolator (new_generator (Some [wp 0 0 0]) None) = (Ok false, self') /\
    self' = new_generator (Some [wp 0 0 0]) None /\
    generate_pos 0 self' = (Ok None, self').
Proof.
  destruct (init_interpolator_rejects (new_generator (Some [wp 0 0 0]) None))
    as ((self' & Hinit & Hsame & Hnot) & Hqueries).
  - right. exists [wp 0 0 0]. split; [reflexivity | simpl; lia].
  - exists self'. split; [exact Hinit | split; [exact Hsame |]].
    apply (Hqueries self' (Hnot eq_refl) 0 None 1).
Defined.

(** C9 at a duration of minus one second. *)
Lemma duration_handling_negative :
  SetThrusterState.read_duration (Some (-1)) = Ok (-1) /\
  SetThrusterState.log_duration (-1) = SetThrusterState.Inf /\
  SetThrusterState.returns_to_previous_state (-1) = false.
Proof.
  apply (proj1 (proj2 (@duration_handling sym_ext)) (-1)). lra.
Defined.

(** * Further properties of the code *)

(** ** Compiling again, and what compiling builds *)

Section CompileProperties.
Context `{Ext : External} `{Base : !PathGeneratorBase}.

Lemma compiled_state_again (self : LinearInterpolator) (wps : WaypointSet)
      (spl : tck) :
  compiled_state (compiled_state self wps spl) wps spl
  = compiled_state self wps spl.
Proof.
  unfold compiled_state. cbn [_duration _start_time _s_step _last_rot _init_rot].
  destruct (_duration self), (_start_time self); reflexivity.
Qed.

(** X1.  [init_interpolator] is idempotent: called again on the state it
    left, it returns the same answer and leaves the same state. *)
Theorem init_interpolator_idempotent
    (self self' : LinearInterpolator) (b : bool) :
  init_interpolator self = (Ok b, self') ->
  init_interpolator self' = (Ok b, self').
Proof.
  intros H. pose proof H as H'. apply init_interpolator_inv in H'.
  destruct H' as [(-> & wps & spl & Hw & Hn & Hfit & ->) | (-> & -> & _)];
    [| exact H].
  rewrite (init_interpolator_ok (compiled_state self wps spl) wps spl
             eq_refl Hn Hfit).
  now rewrite compiled_state_again.
Qed.

(** X2.  [init_interpolator] replaces the compiled state as a whole: two
    generators that hold the same waypoints, duration, start time, step
    and orientations are left in the same state, whatever segments, table,
    spline and markers each of them held before. *)
Theorem init_interpolator_replaces
    (self1 self2 self1' : LinearInterpolator) :
  _waypoints self1 = _waypoints self2 ->
  _duration self1 = _duration self2 ->
  _start_time self1 = _start_time self2 ->
  _s_step self1 = _s_step self2 ->
  _last_rot self1 = _last_rot self2 ->
  _init_rot self1 = _init_rot self2 ->
  init_interpolator self1 = (Ok true, self1') ->
  init_interpolator self2 = (Ok true, self1').
Proof.
  intros Hw Hd Ht Hs Hl Hi H. apply init_interpolator_inv in H.
  destruct H as [(_ & wps & spl & Hw1 & Hn & Hfit & ->) | (E & _)];
    [| discriminate].
  rewrite Hw in Hw1.
  rewrite (init_interpolator_ok self2 wps spl Hw1 Hn Hfit).
  unfold compiled_state. now rewrite Hd, Ht, Hs, Hl, Hi.
Qed.

(** X3.  After a successful [init_interpolator] on [n] waypoints there are
    [n - 1] segments, and segment [i] runs from the position of waypoint
    [i] to the position of waypoint [i + 1]; the bookkeeping fields are
    reset and the waypoints, the step and both orientations are kept. *)
Theorem init_interpolator_segments
    (self self' : LinearInterpolator) :
  init_interpolator self = (Ok true, self') ->
  exists wps segs,
    _waypoints self = Some wps /\ _waypoints self' = Some wps /\
    _interp_pos self' = Some segs /\
    length segs = (num_waypoints wps - 1)%nat /\
    (forall i a b,
       nth_error wps i = Some a -> nth_error wps (S i) = Some b ->
       nth_error segs i = Some (mkLineSegment (pos a) (pos b))) /\
    _segment_to_wp_map self' = [0%nat] /\ _markers_msg self' = [] /\
    _marker_id self' = 0%nat /\
    _s_step self' = _s_step self /\ _last_rot self' = _last_rot self /\
    _init_rot self' = _init_rot self.
Proof.
  intros H. apply init_interpolator_inv in H.
  destruct H as [(_ & wps & spl & Hw & Hn & _ & ->) | (E & _)];
    [| discriminate].
  exists wps, (build_segments wps). repeat split; try assumption.
  - apply build_segments_length.
  - intros i a b. apply build_segments_nth.
Qed.

Lemma np_sum_uniform (v : R) (l : list R) :
  Forall (fun a => a = v) l -> np_sum l = INR (length l) * v.
Proof.
  induction 1 as [| a l Ha _ IH].
  - simpl. lra.
  - cbn [np_sum fold_right length]. fold (np_sum l). rewrite IH, S_INR, Ha. lra.
Qed.

(** X4.  When no duration is set and every waypoint has the same
    [max_forward_speed] [v], [init_interpolator] on at least two waypoints
    leaves the duration at the total length of the path over [v], whether
    [splrep] then returns or raises; for [v = 0] this is the non-finite
    result of a division by zero, no failure is reported for it, and
    [init_interpolator] returns [True] whenever [splrep] returns. *)
Theorem init_interpolator_default_duration
    (self : LinearInterpolator) (wps : WaypointSet) (v : R) :
  _waypoints self = Some wps -> (2 <= num_waypoints wps)%nat ->
  _duration self = None ->
  Forall (fun w => max_forward_speed w = v) wps ->
  _duration (snd (init_interpolator self))
  = Some (ndiv (Fin (total_length wps)) (Fin v)) /\
  fst (init_interpolator self) <> Ok false /\
  (forall spl, fit_heading wps = Ok spl ->
     fst (init_interpolator self) = Ok true).
Proof.
  unfold num_waypoints. intros Hw Hn Hd Hv.
  destruct (init_interpolator_duration self wps Hw Hn) as (Hdur & Hrest).
  split; [| exact Hrest].
  rewrite Hdur, Hd.
  assert (np_mean (map max_forward_speed wps) = Fin v) as ->; [| reflexivity].
  unfold np_mean. rewrite (np_sum_uniform v).
  - rewrite length_map.
    assert (INR (length wps) <> 0) as Hne by (apply not_0_INR; lia).
    rewrite ndiv_fin by exact Hne. f_equal. field. exact Hne.
  - apply Forall_map. exact Hv.
Qed.

End CompileProperties.

(** ** Positions along the path *)

Lemma firstn_succ_sum (l : list R) (k : nat) (v : R) :
  nth_error l k = Some v ->
  np_sum (firstn (S k) l) = np_sum (firstn k l) + v.
Proof.
  revert k. induction l as [| a l IH]; intros k Hk.
  - destruct k; discriminate.
  - destruct k as [| k]; simpl in Hk.
    + injection Hk as ->. simpl. lra.
    + rewrite firstn_cons.
      change (firstn (S k) (a :: l)) with (a :: firstn k l).
      cbn [np_sum fold_right]. fold (np_sum (firstn (S k) l)).
      fold (np_sum (firstn k l)). rewrite (IH k Hk). lra.
Qed.

Section PathGeometry.

Variable wps : WaypointSet.

Let lens := map get_length (build_segments wps).

(** The length of segment [k] is the step of the prefix sums at [k]. *)
Lemma prefix_step (k : nat) (a b : Waypoint) :
  nth_error wps k = Some a -> nth_error wps (S k) = Some b ->
  np_sum (firstn (S k) lens)
  = np_sum (firstn k lens) + get_length (mkLineSegment (pos a) (pos b)).
Proof.
  intros Ha Hb. apply firstn_succ_sum. unfold lens.
  rewrite nth_error_map, (build_segments_nth wps k a b Ha Hb). reflexivity.
Qed.

Lemma prefix_mono (i j : nat) :
  (i <= j)%nat -> np_sum (firstn i lens) <= np_sum (firstn j lens).
Proof. intros Hij. apply firstn_sum_le; [apply lengths_nonneg | exact Hij]. Qed.

(** Waypoints between two indices with the same prefix sum lie at one
    place. *)
Lemma equal_prefix_same_pos (j i : nat) (a b : Waypoint) :
  (j <= i)%nat ->
  nth_error wps j = Some a -> nth_error wps i = Some b ->
  np_sum (firstn j lens) = np_sum (firstn i lens) ->
  pos a = pos b.
Proof.
  intros Hji Ha. revert b. induction Hji as [| i Hji IH]; intros b Hb Heq.
  - congruence.
  - destruct (nth_error wps i) as [c |] eqn:Hc.
    2:{ apply nth_error_None in Hc.
        assert (nth_error wps (S i) <> None) as Hs by congruence.
        apply nth_error_Some in Hs. lia. }
    pose proof (prefix_step i c b Hc Hb) as Hstep.
    pose proof (prefix_mono j i Hji) as H1.
    pose proof (get_length_nonneg (mkLineSegment (pos c) (pos b))) as H2.
    assert (get_length (mkLineSegment (pos c) (pos b)) = 0) as Hz by lra.
    apply get_length_zero in Hz. simpl in Hz.
    rewrite <- Hz. apply IH; [reflexivity | lra].
Qed.

End PathGeometry.

Section RangeQueries.
Context `{Ext : External}.

Variable wps : WaypointSet.
Variable self : LinearInterpolator.
Hypothesis Hpath : path_of self wps.
Hypothesis Hpos : 0 < total_length wps.

Let T := total_length wps.

Lemma path_of_entry (i : nat) :
  (i < length wps)%nat ->
  nth_error (_s self) i = Some (Fin (length_to wps i / T)).
Proof.
  destruct Hpath as (Hn & _ & ->). intros Hi.
  apply (table_entry wps Hn Hpos i Hi).
Qed.

Lemma length_to_0 : length_to wps 0 = 0.
Proof. reflexivity. Qed.

Lemma length_to_last : length_to wps (length wps - 1) = T.
Proof.
  unfold length_to, T, total_length. rewrite firstn_all2; [reflexivity |].
  rewrite length_map, build_segments_length. lia.
Qed.

Lemma length_to_le_total (i : nat) : length_to wps i <= T.
Proof. apply (prefix_le_total wps). Qed.

Lemma length_to_mono (i j : nat) :
  (i <= j)%nat -> length_to wps i <= length_to wps j.
Proof. apply prefix_mono. Qed.

(** For [s <= 1] an entry of the table is at least [s]: the index is the
    first such entry. *)
Lemma locate (s : R) :
  s <= 1 ->
  exists idx,
    get_segment_idx self s = idx /\ (idx < length wps)%nat /\
    s <= length_to wps idx / T /\
    (forall j, (j < idx)%nat -> length_to wps j / T < s).
Proof.
  intros Hs. destruct Hpath as (Hn & _ & Htab).
  unfold get_segment_idx.
  destruct (first_index_geq s (_s self)) as [idx |] eqn:Hfind.
  - exists idx.
    destruct (first_index_geq_some _ _ _ Hfind) as [(e & He & Hge) Hbefore].
    assert (idx < length wps)%nat as Hlt.
    { rewrite <- (compiled_table_length self wps Hn Htab).
      apply nth_error_Some. congruence. }
    rewrite (path_of_entry idx Hlt) in He. injection He as <-.
    apply nleb_fin in Hge. repeat split; try assumption.
    intros j Hj. apply nleb_fin_false.
    apply (Hbefore j); [exact Hj | apply path_of_entry; lia].
  - exfalso.
    pose proof (path_of_entry (length wps - 1) ltac:(lia)) as He.
    apply nth_error_In in He.
    apply (first_index_geq_none _ _ Hfind) in He. apply nleb_fin_false in He.
    rewrite length_to_last in He. unfold Rdiv in He.
    rewrite Rinv_r in He by (unfold T; lra). lra.
Qed.

Lemma div_T_le (a b : R) : a / T <= b / T -> a <= b.
Proof.
  intros H. apply (Rmult_le_compat_r T) in H; [| unfold T; lra].
  unfold Rdiv in H. rewrite !Rmult_assoc, Rinv_l, !Rmult_1_r in H;
    [exact H | unfold T; lra].
Qed.

Lemma div_T_lt (a b : R) : a / T < b / T -> a < b.
Proof.
  intros H. apply (Rmult_lt_compat_r T) in H; [| unfold T; lra].
  unfold Rdiv in H. rewrite !Rmult_assoc, Rinv_l, !Rmult_1_r in H;
    [exact H | unfold T; lra].
Qed.

(** X5.  Between two consecutive waypoints the arc-length table grows by
    the length of the segment over the total length, so it grows strictly
    exactly when the two waypoints are at different places. *)
Theorem arc_table_step (i : nat) (a b : Waypoint) :
  nth_error wps i = Some a -> nth_error wps (S i) = Some b ->
  exists ti tj,
    nth_error (_s self) i = Some (Fin ti) /\
    nth_error (_s self) (S i) = Some (Fin tj) /\
    tj - ti = get_length (mkLineSegment (pos a) (pos b)) / total_length wps /\
    (ti < tj <-> pos a <> pos b).
Proof.
  intros Ha Hb.
  assert (S i < length wps)%nat as Hi by (apply nth_error_Some; congruence).
  exists (length_to wps i / T), (length_to wps (S i) / T).
  pose proof (prefix_step wps i a b Ha Hb) as Hstep.
  fold (length_to wps (S i)) in Hstep. fold (length_to wps i) in Hstep.
  split; [apply path_of_entry; lia |].
  split; [apply path_of_entry; exact Hi |].
  split.
  - rewrite Hstep. fold T. unfold Rdiv. ring.
  - pose proof (get_length_nonneg (mkLineSegment (pos a) (pos b))) as Hge.
    split.
    + intros Hlt E. apply div_T_lt in Hlt.
      rewrite E, get_length_same in Hstep. lra.
    + intros Hne.
      assert (get_length (mkLineSegment (pos a) (pos b)) <> 0) as Hnz.
      { intros Hz. apply get_length_zero in Hz. now apply Hne. }
      unfold Rdiv. apply Rmult_lt_compat_r; [| lra].
      apply Rinv_0_lt_compat. unfold T. lra.
Qed.

(** X6.  For every [s <= 0], [generate_pos s] is the position of the first
    waypoint: before the start the position is held, not extrapolated. *)
Theorem generate_pos_before_start (s : R) (w0 : Waypoint) :
  s <= 0 -> hd_error wps = Some w0 ->
  generate_pos s self = (Ok (Some (vec_of_point (pos w0))), self).
Proof.
  intros Hs Hw0. destruct Hpath as (Hn & Hsegs & Htab).
  destruct (locate s ltac:(lra)) as (idx & Hidx & Hlt & Hge & Hbefore).
  assert (idx = 0%nat) as ->.
  { destruct idx as [| k]; [reflexivity |].
    specialize (Hbefore 0%nat ltac:(lia)). rewrite length_to_0 in Hbefore.
    unfold Rdiv in Hbefore. rewrite Rmult_0_l in Hbefore. lra. }
  destruct (generate_pos_compiled s self wps Hn Hsegs Htab) as [H0 _].
  destruct (H0 Hidx) as (seg & Hseg & ->).
  rewrite interpolate_0.
  destruct wps as [| a [| b rest]]; simpl in Hn; try lia.
  simpl in Hw0, Hseg. injection Hw0 as <-. injection Hseg as <-.
  reflexivity.
Qed.

(** X7.  For every [s] in (0, 1] the position lies on a segment of the
    path, at a local parameter [u] in (0, 1]: no division by zero occurs,
    even next to segments of length zero, and the length of the path up to
    the position is [s] times the total length. *)
Theorem generate_pos_arc_length (s : R) :
  0 < s <= 1 ->
  exists k a b u,
    nth_error wps k = Some a /\ nth_error wps (S k) = Some b /\
    0 < u <= 1 /\
    generate_pos s self
    = (Ok (Some (interpolate (mkLineSegment (pos a) (pos b)) (Fin u))), self) /\
    length_to wps k + u * get_length (mkLineSegment (pos a) (pos b))
    = s * total_length wps.
Proof.
  intros Hs. destruct Hpath as (Hn & Hsegs & Htab).
  destruct (locate s ltac:(lra)) as (idx & Hidx & Hlt & Hge & Hbefore).
  assert (idx <> 0)%nat as Hne.
  { intros ->. rewrite length_to_0 in Hge. unfold Rdiv in Hge.
    rewrite Rmult_0_l in Hge. lra. }
  destruct (generate_pos_compiled s self wps Hn Hsegs Htab) as [_ H1].
  rewrite Hidx in H1.
  destruct (H1 Hne) as (seg & lo & hi & Hseg & Hlo & Hhi & Hrun).
  destruct (nth_error wps (idx - 1)) as [a |] eqn:Ha;
    [| apply nth_error_None in Ha; lia].
  destruct (nth_error wps idx) as [b |] eqn:Hb;
    [| apply nth_error_None in Hb; lia].
  assert (S (idx - 1) = idx) as HS by lia.
  rewrite (build_segments_nth wps (idx - 1) a b Ha) in Hseg
    by (rewrite HS; exact Hb).
  injection Hseg as <-.
  rewrite (path_of_entry (idx - 1)) in Hlo by lia. injection Hlo as <-.
  rewrite (path_of_entry idx Hlt) in Hhi. injection Hhi as <-.
  pose proof (prefix_step wps (idx - 1) a b Ha) as Hstep.
  rewrite HS in Hstep. specialize (Hstep Hb).
  fold (length_to wps idx) in Hstep. fold (length_to wps (idx - 1)) in Hstep.
  pose proof (Hbefore (idx - 1)%nat ltac:(lia)) as Hlow.
  set (len := get_length (mkLineSegment (pos a) (pos b))) in *.
  set (c := length_to wps (idx - 1)) in *.
  assert (0 < T) as HT by (unfold T; lra).
  assert (c < s * T) as Hc1.
  { apply (Rmult_lt_compat_r T) in Hlow; [| exact HT].
    unfold Rdiv in Hlow. rewrite Rmult_assoc, Rinv_l, Rmult_1_r in Hlow; lra. }
  assert (s * T <= c + len) as Hc2.
  { rewrite Hstep in Hge.
    apply (Rmult_le_compat_r T) in Hge; [| lra].
    unfold Rdiv in Hge. rewrite Rmult_assoc, Rinv_l, Rmult_1_r in Hge; lra. }
  assert (0 < len) as Hlen by lra.
  exists (idx - 1)%nat, a, b, ((s * T - c) / len).
  rewrite HS. split; [exact Ha | split; [exact Hb | split; [| split]]].
  - split.
    + unfold Rdiv. apply Rmult_lt_0_compat; [lra |].
      now apply Rinv_0_lt_compat.
    + apply (Rmult_le_reg_r len); [exact Hlen |].
      unfold Rdiv. rewrite Rmult_assoc, Rinv_l by lra. lra.
  - rewrite Hrun.
    assert (ndiv (nsub (Fin s) (Fin (c / T)))
                 (nsub (Fin (length_to wps idx / T)) (Fin (c / T)))
            = Fin ((s * T - c) / len)) as ->; [| reflexivity].
    cbn [nsub]. rewrite Hstep.
    rewrite ndiv_fin.
    + f_equal. field. split; lra.
    + unfold Rdiv.
      replace ((c + len) * / T - c * / T) with (len * / T) by ring.
      apply Rmult_integral_contrapositive_currified; [lra |].
      apply Rinv_neq_0_compat. lra.
  - fold c len T. unfold Rdiv. rewrite Rmult_assoc, Rinv_l by lra. lra.
Qed.

(** X8.  At the table value of waypoint [i], [generate_pos] is the position
    of waypoint [i]: the path passes through every waypoint, also through
    waypoints that coincide with their neighbours. *)
Theorem generate_pos_at_waypoint (i : nat) (w : Waypoint) :
  nth_error wps i = Some w ->
  generate_pos (length_to wps i / total_length wps) self
  = (Ok (Some (vec_of_point (pos w))), self).
Proof.
  intros Hw. fold T.
  assert (i < length wps)%nat as Hi by (apply nth_error_Some; congruence).
  assert (0 < T) as HT by (unfold T; lra).
  destruct Hpath as (Hn & Hsegs & Htab).
  assert (length_to wps i / T <= 1) as Hle.
  { pose proof (length_to_le_total i) as Hl.
    apply (Rmult_le_reg_r T); [exact HT |].
    unfold Rdiv. rewrite Rmult_assoc, Rinv_l by lra. lra. }
  destruct (locate _ Hle) as (idx & Hidx & Hlt & Hge & Hbefore).
  apply div_T_le in Hge.
  assert (idx <= i)%nat as Hii.
  { destruct (le_lt_dec idx i) as [H | H]; [exact H |].
    specialize (Hbefore i H). lra. }
  pose proof (length_to_mono idx i Hii) as Hmono.
  assert (length_to wps idx = length_to wps i) as Heq by lra.
  destruct (nth_error wps idx) as [b |] eqn:Hb;
    [| apply nth_error_None in Hb; lia].
  assert (pos b = pos w) as Hsame
      by (apply (equal_prefix_same_pos wps idx i b w Hii Hb Hw Heq)).
  destruct (generate_pos_compiled (length_to wps i / T) self wps Hn Hsegs Htab)
    as [H0 H1].
  rewrite Hidx in H0, H1.
  destruct (Nat.eq_dec idx 0) as [E | E].
  - destruct (H0 E) as (seg & Hseg & ->). rewrite interpolate_0.
    rewrite E in Hb.
    destruct (nth_error wps 1) as [b1 |] eqn:Hb1;
      [| apply nth_error_None in Hb1; lia].
    rewrite (build_segments_nth wps 0 b b1 Hb Hb1) in Hseg.
    injection Hseg as <-. simpl p_init. now rewrite Hsame.
  - destruct (H1 E) as (seg & lo & hi & Hseg & Hlo & Hhi & ->).
    destruct (nth_error wps (idx - 1)) as [a |] eqn:Ha;
      [| apply nth_error_None in Ha; lia].
    assert (S (idx - 1) = idx) as HS by lia.
    rewrite (build_segments_nth wps (idx - 1) a b Ha) in Hseg
      by (rewrite HS; exact Hb).
    injection Hseg as <-.
    rewrite (path_of_entry (idx - 1)) in Hlo by lia. injection Hlo as <-.
    rewrite (path_of_entry idx Hlt) in Hhi. injection Hhi as <-.
    pose proof (Hbefore (idx - 1)%nat ltac:(lia)) as Hlow.
    apply div_T_lt in Hlow.
    cbn [nsub]. rewrite Heq.
    rewrite ndiv_fin.
    + replace ((length_to wps i / T - length_to wps (idx - 1) / T)
               / (length_to wps i / T - length_to wps (idx - 1) / T))
        with 1 by (field; split; lra).
      rewrite interpolate_1. simpl p_target. now rewrite Hsame.
    + unfold Rdiv.
      replace (length_to wps i * / T - length_to wps (idx - 1) * / T)
        with ((length_to wps i - length_to wps (idx - 1)) * / T) by ring.
      apply Rmult_integral_contrapositive_currified; [lra |].
      apply Rinv_neq_0_compat. lra.
Qed.

End RangeQueries.

(** ** Orientation, single points and sampling *)

Section QueryProperties.
Context `{Ext : External} `{Base : !PathGeneratorBase}.

Lemma clamp_above (s : R) : 1 <= s -> py_min (py_max 0 s) 1 = 1.
Proof.
  intros Hs. unfold py_max, py_min.
  destruct (Rlt_dec 0 s); [| lra].
  destruct (Rlt_dec 1 s); [reflexivity | lra].
Qed.

Lemma clamp_positive (s : R) : 0 < s -> py_min (py_max 0 s) 1 <> 0.
Proof.
  intros Hs. unfold py_max, py_min.
  destruct (Rlt_dec 0 s); [| lra].
  destruct (Rlt_dec 1 s); lra.
Qed.

(** [generate_quat] reads [s] through the clamp only. *)
Lemma generate_quat_clamped (s s' : R) (self : LinearInterpolator) :
  py_min (py_max 0 s) 1 = py_min (py_max 0 s') 1 ->
  generate_quat s self = generate_quat s' self.
Proof. intros H. unfold generate_quat. now rewrite H. Qed.

(** X9.  [generate_quat] clamps its argument from above: for every
    [s >= 1] it returns what it returns at 1 and leaves the same state. *)
Theorem generate_quat_beyond_end (s : R) (self : LinearInterpolator) :
  1 <= s -> generate_quat s self = generate_quat 1 self.
Proof.
  intros Hs. apply generate_quat_clamped.
  now rewrite (clamp_above s Hs), (clamp_above 1 (Rle_refl 1)).
Qed.

(** X10.  On a generator that is not compiled, [generate_quat s] for
    [s > 0] raises [TypeError], subscripting the [None] that [generate_pos]
    returned, and leaves the generator as it was, cursor included. *)
Theorem generate_quat_not_compiled (s : R) (self : LinearInterpolator) :
  _interp_pos self = None -> 0 < s ->
  generate_quat s self = (Raise TypeError, self).
Proof.
  intros Hnone Hs. unfold generate_quat.
  destruct (Req_dec_T (py_min (py_max 0 s) 1) 0) as [E | _];
    [now apply clamp_positive in E |].
  unfold bind at 1. rewrite (generate_pos_not_compiled _ self Hnone).
  unfold bind at 1. rewrite (generate_pos_not_compiled _ self Hnone).
  reflexivity.
Qed.

(** [generate_pos] reads the segments and the table only. *)
Lemma generate_pos_reads (s : R) (self1 self2 : LinearInterpolator) :
  _interp_pos self1 = _interp_pos self2 -> _s self1 = _s self2 ->
  fst (generate_pos s self1) = fst (generate_pos s self2).
Proof.
  intros Hp Hs. unfold generate_pos, get_segment_idx. rewrite Hp, Hs.
  destruct (_interp_pos self2) as [segs |]; [| reflexivity].
  destruct (_ =? 0)%nat; unfold bind, getitem, ret, raise;
    repeat match goal with
           | |- context [nth_error ?l ?i] => destruct (nth_error l i)
           end; reflexivity.
Qed.

(** The sampling loop reads the generator through [generate_pos] only. *)
Lemma sample_loop_reads (xs : list R) (self1 self2 : LinearInterpolator) :
  (forall x, fst (generate_pos x self1) = fst (generate_pos x self2)) ->
  fst (sample_loop xs self1) = fst (sample_loop xs self2).
Proof.
  intros H. induction xs as [| i xs IH]; [reflexivity |].
  cbn [sample_loop]. unfold bind.
  pose proof (H i) as Hi.
  pose proof (generate_pos_frame i self1) as F1.
  pose proof (generate_pos_frame i self2) as F2.
  destruct (generate_pos i self1) as [r1 st1].
  destruct (generate_pos i self2) as [r2 st2].
  cbn [fst snd] in Hi, F1, F2. subst r1 st1 st2.
  destruct r2 as [[v |] | e]; try reflexivity.
  unfold call_tolist, ret.
  destruct (sample_loop xs self1) as [r3 st3].
  destruct (sample_loop xs self2) as [r4 st4].
  cbn [fst] in IH. subst r3. now destruct r4.
Qed.

Lemma compiled_set_last_rot (q : quat) (self : LinearInterpolator) :
  compiled self -> compiled (set_last_rot q self).
Proof. intros (wps & H). exists wps. exact H. Qed.

(** On a compiled generator [generate_quat] returns a quaternion for every
    [s] and leaves it in the cursor. *)
Lemma generate_quat_returns (s : R) (self : LinearInterpolator) :
  compiled self ->
  exists q, generate_quat s self = (Ok q, set_last_rot q self).
Proof.
  intros Hc. unfold generate_quat.
  destruct (Req_dec_T (py_min (py_max 0 s) 1) 0); [eexists; reflexivity |].
  set (s' := py_min (py_max 0 s) 1).
  destruct (generate_pos_returns s' self Hc) as (a & Ha).
  destruct (generate_pos_returns (py_max 0 (s' - _s_step self)) self Hc)
    as (b & Hb).
  destruct Hc as (wps & _ & _ & _ & _ & Hh & spl & Hspl & _).
  unfold bind at 1. rewrite Ha. unfold bind at 1. rewrite Hb.
  unfold bind, subscript, ret, get, modify, call_heading.
  cbn [_interp_heading _heading_spline set_last_rot].
  rewrite Hh, Hspl. eexists. reflexivity.
Qed.

(** X11.  Orientation queries do not disturb position queries: after any
    [generate_quat], [generate_pos] and [get_samples] return what they
    returned before, and a compiled generator is still compiled. *)
Theorem queries_after_generate_quat
    (s s' : R) (max_time : option R) (step : R) (self : LinearInterpolator) :
  fst (generate_pos s' (snd (generate_quat s self)))
  = fst (generate_pos s' self) /\
  fst (get_samples max_time step (snd (generate_quat s self)))
  = fst (get_samples max_time step self) /\
  (compiled self -> compiled (snd (generate_quat s self))).
Proof.
  destruct (generate_quat_writes_cursor s self) as (q & ->).
  assert (forall x, fst (generate_pos x (set_last_rot q self))
                    = fst (generate_pos x self)) as Hpos
      by (intros x; now apply generate_pos_reads).
  split; [apply Hpos | split; [| apply compiled_set_last_rot]].
  unfold get_samples. cbn [set_last_rot _waypoints _interp_pos].
  destruct (_waypoints self); [| reflexivity].
  destruct (_interp_pos self); [| reflexivity].
  destruct (np_arange 0 (1 + step) step) as [vals | e]; [| reflexivity].
  unfold bind.
  pose proof (sample_loop_reads vals (set_last_rot q self) self Hpos) as Hloop.
  destruct (sample_loop vals self) as [r3 st3].
  destruct (sample_loop vals (set_last_rot q self)) as [r4 st4].
  cbn [fst] in Hloop. subst r4. now destruct r3.
Qed.

(** X12.  On a compiled generator [generate_pnt s t] returns, for every
    [s] and [t], a point with timestamp [t], the position of
    [generate_pos s] and the orientation of [generate_quat s]; it raises
    nothing and changes the cursor only, to that orientation. *)
Theorem generate_pnt_compiled (s t : R) (self : LinearInterpolator) :
  compiled self ->
  exists v q p,
    generate_pos s self = (Ok (Some v), self) /\
    generate_quat s self = (Ok q, set_last_rot q self) /\
    generate_pnt s t self = (Ok p, set_last_rot q self) /\
    pnt_t p = t /\ pnt_pos p = tolist v /\ pnt_rotq p = q /\
    _last_rot (snd (generate_pnt s t self)) = q /\
    snd (generate_pnt s t self) = snd (generate_quat s self).
Proof.
  intros Hc.
  destruct (generate_pos_returns s self Hc) as (v & Hv).
  destruct (generate_quat_returns s self Hc) as (q & Hq).
  exists v, q,
    (set_pnt_rotq q (set_pnt_pos (tolist v) (set_pnt_t t TrajectoryPoint_new))).
  assert (generate_pnt s t self
          = (Ok (set_pnt_rotq q
                   (set_pnt_pos (tolist v) (set_pnt_t t TrajectoryPoint_new))),
             set_last_rot q self)) as Hrun.
  { unfold generate_pnt, bind. rewrite Hv. cbn [call_tolist ret].
    rewrite Hq. reflexivity. }
  split; [exact Hv | split; [exact Hq | split; [exact Hrun |]]].
  rewrite Hrun, Hq. repeat split.
Qed.

(** X13.  On a compiled generator [get_samples] with a step of zero
    raises, leaving the generator as it was, and with a step in [-1, 0) it
    returns an empty list of points. *)
Theorem get_samples_nonpositive_step
    (max_time : option R) (self : LinearInterpolator) :
  compiled self ->
  (exists e, get_samples max_time 0 self = (Raise e, self)) /\
  (forall step, -1 <= step < 0 ->
     get_samples max_time step self = (Ok (Some []), self)).
Proof.
  intros Hc. split.
  - exists ZeroDivisionError. now apply get_samples_zero_step.
  - intros step Hstep. destruct Hc as (wps & _ & Hw & Hpos & _).
    unfold get_samples. rewrite Hw, Hpos.
    rewrite np_arange_samples by lra.
    assert (sample_count step = 0%nat) as ->; [| reflexivity].
    unfold sample_count.
    set (r := (1 + step - 0) / step).
    assert (r <= 0) as Hr.
    { unfold r, Rdiv.
      replace ((1 + step - 0) * / step)
        with (- ((1 + step) * / (- step))).
      - assert (0 <= (1 + step) * / - step); [| lra].
        apply Rmult_le_pos; [lra |]. left. apply Rinv_0_lt_compat. lra.
      - field. lra. }
    destruct (Zceil_bounds r) as [_ H2].
    assert (Zceil r < 1)%Z as Hz by (apply lt_IZR; lra).
    destruct (Zceil r); try reflexivity. lia.
Qed.

End QueryProperties.

(** ** The start of [main] *)

Module ThrusterScriptFacts.
Import Ascii String ThrusterScript.
Local Open Scope string_scope.

Lemma append_cancel_l (p a b : string) : p ++ a = p ++ b -> a = b.
Proof.
  induction p as [| c p IH]; simpl; intros H; [exact H |].
  injection H as H. now apply IH.
Qed.

(** Two strings without a slash, each followed by a slash, are told apart
    by the first slash. *)
Lemma split_at_slash (a b x y : string) :
  no_slash a -> no_slash b ->
  a ++ String "/" x = b ++ String "/" y -> a = b /\ x = y.
Proof.
  revert b. induction a as [| c a IH]; intros b Ha Hb H.
  - destruct b as [| d b]; simpl in H.
    + injection H as H. now split.
    + injection H as Hc _. simpl in Hb. destruct Hb as [Hd _].
      now elim Hd.
  - destruct b as [| d b]; simpl in H.
    + injection H as Hc _. simpl in Ha. destruct Ha as [Hc' _].
      now elim Hc'.
    + injection H as Hc H. simpl in Ha, Hb.
      destruct (IH b (proj2 Ha) (proj2 Hb) H) as [-> ->]. subst d.
      now split.
Qed.

Lemma remove_slashes_no_slash (s : string) : no_slash (remove_slashes s).
Proof.
  induction s as [| c s IH]; simpl; [exact I |].
  destruct (Ascii.eqb_spec c "/"); [exact IH |]. simpl. now split.
Qed.

Lemma remove_slashes_fixed (s : string) :
  no_slash s -> remove_slashes s = s.
Proof.
  induction s as [| c s IH]; simpl; [reflexivity |].
  intros [Hc Hs]. destruct (Ascii.eqb_spec c "/"); [contradiction |].
  now rewrite IH.
Qed.

Lemma uint_no_slash (d : Decimal.uint) :
  no_slash (DecimalString.NilEmpty.string_of_uint d).
Proof.
  induction d; simpl; try exact I; split; try assumption; discriminate.
Qed.

Lemma format_d_no_slash (n : Z) : no_slash (format_d n).
Proof.
  unfold format_d, DecimalString.NilZero.string_of_int,
    DecimalString.NilZero.string_of_uint.
  destruct (Z.to_int n) as [d | d].
  - destruct d; try apply uint_no_slash. simpl. split; [discriminate | exact I].
  - simpl. split; [discriminate |].
    destruct d; try apply uint_no_slash. simpl. split; [discriminate | exact I].
Qed.

Lemma to_int_proper (n : Z) :
  Z.to_int n <> Decimal.Pos Decimal.Nil /\ Z.to_int n <> Decimal.Neg Decimal.Nil.
Proof.
  destruct n as [| p | p]; simpl; split; try discriminate;
    intros H; injection H as H; now apply DecimalPos.Unsigned.to_uint_nonnil in H.
Qed.

(** The decimal text of an integer determines it. *)
Lemma format_d_inj (n m : Z) : format_d n = format_d m -> n = m.
Proof.
  unfold format_d. intros H.
  apply DecimalZ.to_int_inj.
  destruct (to_int_proper n) as [Hn1 Hn2].
  destruct (to_int_proper m) as [Hm1 Hm2].
  pose proof (DecimalString.NilZero.isi _ Hn1 Hn2) as Pn.
  pose proof (DecimalString.NilZero.isi _ Hm1 Hm2) as Pm.
  rewrite H in Pn. congruence.
Qed.

(** X14.  Service names do not collide: for namespaces cleared of their
    slashes, as [main] clears them, the name [build_service_name] gives
    determines the namespace and the thruster id. *)
Theorem build_service_name_inj
    (namespace1 namespace2 : string) (id1 id2 : Z) (service_name : string) :
  build_service_name (remove_slashes namespace1) id1 service_name
  = build_service_name (remove_slashes namespace2) id2 service_name ->
  remove_slashes namespace1 = remove_slashes namespace2 /\ id1 = id2.
Proof.
  unfold build_service_name. intros H.
  apply (append_cancel_l "/") in H.
  change ("/thrusters/id_" ++ format_d id1 ++ "/" ++ service_name)
    with (String "/" ("thrusters/id_" ++ format_d id1 ++ "/" ++ service_name))
    in H.
  change ("/thrusters/id_" ++ format_d id2 ++ "/" ++ service_name)
    with (String "/" ("thrusters/id_" ++ format_d id2 ++ "/" ++ service_name))
    in H.
  apply split_at_slash in H; try apply remove_slashes_no_slash.
  destruct H as [Hns H]. split; [exact Hns |].
  apply append_cancel_l in H.
  change ("/" ++ service_name) with (String "/" service_name) in H.
  apply split_at_slash in H; try apply format_d_no_slash.
  apply format_d_inj. tauto.
Qed.

(** X15.  [main] reaches its first request exactly when the duration is
    given and not zero, [is_on] is given, the thruster id is given as an
    integer that is not negative, the client is created and the service is
    found; the settings are then the parameters, with a negative starting
    time replaced by the time of the clock and the service name built from
    the namespace without its slashes.  When all parameters are accepted,
    a client that cannot be created is reported before a service that is
    not found. *)
Theorem setup_succeeds
    (now : R) (namespace : string) (created available : string -> bool)
    (p : Parameters) :
  (forall c : Settings,
     setup now namespace created available p = inl c <->
     exists d b id,
       duration_parameter p = Some d /\ d <> 0 /\
       is_on_parameter p = Some b /\
       thruster_id_parameter p = Some (Some id) /\ (0 <= id)%Z /\
       created (build_service_name (remove_slashes namespace) id
                  "set_thruster_state") = true /\
       available (build_service_name (remove_slashes namespace) id
                    "set_thruster_state") = true /\
       c = mkSettings
             (match starting_time_parameter p with
              | Some t0 => if Rlt_dec t0 0 then now else t0
              | None => 0
              end)
             d b id
             (build_service_name (remove_slashes namespace) id
                "set_thruster_state")) /\
  (forall d b id,
     duration_parameter p = Some d -> d <> 0 ->
     is_on_parameter p = Some b ->
     thruster_id_parameter p = Some (Some id) -> (0 <= id)%Z ->
     let name := build_service_name (remove_slashes namespace) id
                   "set_thruster_state" in
     (created name = false ->
      setup now namespace created available p = inr ServiceCallFailed) /\
     (created name = true -> available name = false ->
      setup now namespace created available p
      = inr (ServiceNotAvailable name))).
Proof.
  unfold setup. split.
  - intros c. split.
    + destruct (duration_parameter p) as [d |];
        [| destruct (Req_dec_T 0 0) as [_ | E]; [discriminate | now elim E]].
      destruct (Req_dec_T d 0) as [| Hd]; [discriminate |].
      destruct (is_on_parameter p) as [b |]; [| discriminate].
      destruct (thruster_id_parameter p) as [[id |] |]; try discriminate.
      destruct (Z.ltb_spec id 0) as [| Hid]; [discriminate |].
      destruct (created _) eqn:Hc; [| discriminate].
      destruct (available _) eqn:Ha; [| discriminate].
      intros H. injection H as <-.
      exists d, b, id. repeat split; try assumption.
      destruct (starting_time_parameter p) as [t0 |]; [reflexivity |].
      destruct (Rlt_dec 0 0); [lra | reflexivity].
    + intros (d & b & id & -> & Hd & -> & -> & Hid & Hc & Ha & ->).
      destruct (Req_dec_T d 0); [contradiction |].
      destruct (Z.ltb_spec id 0) as [| _]; [lia |].
      rewrite Hc, Ha.
      destruct (starting_time_parameter p) as [t0 |]; [reflexivity |].
      destruct (Rlt_dec 0 0); [lra | reflexivity].
  - intros d b id -> Hd -> -> Hid. cbv zeta.
    destruct (Req_dec_T d 0); [contradiction |].
    destruct (Z.ltb_spec id 0) as [| _]; [lia |].
    split.
    + now intros ->.
    + now intros -> ->.
Qed.

(** X16.  The failures of [main] in the order of its checks: a duration
    that is missing or zero is reported first; then a missing [is_on];
    then a missing thruster id; a thruster id that is given with another
    type than integer, or negative, is reported as invalid, not as
    missing. *)
Theorem setup_failures
    (now : R) (namespace : string) (created available : string -> bool)
    (p : Parameters) :
  ((duration_parameter p = None \/ duration_parameter p = Some 0) ->
   setup now namespace created available p = inr DurationNotSet) /\
  (forall d, duration_parameter p = Some d -> d <> 0 ->
     (is_on_parameter p = None ->
      setup now namespace created available p = inr IsOnNotProvided) /\
     (forall b, is_on_parameter p = Some b ->
        (thruster_id_parameter p = None ->
         setup now namespace created available p = inr ThrusterIdNotGiven) /\
        (thruster_id_parameter p = Some None ->
         setup now namespace created available p = inr InvalidThrusterId) /\
        (forall id, thruster_id_parameter p = Some (Some id) -> (id < 0)%Z ->
           setup now namespace created available p = inr InvalidThrusterId))).
Proof.
  unfold setup. split.
  - intros [-> | ->]; destruct (Req_dec_T 0 0) as [_ | E];
      try reflexivity; now elim E.
  - intros d -> Hd. destruct (Req_dec_T d 0); [contradiction |].
    split; [now intros -> |].
    intros b ->. split; [now intros -> | split].
    + now intros ->.
    + intros id -> Hid. destruct (Z.ltb_spec id 0); [reflexivity | lia].
Qed.

(** X17.  For every duration that [main] accepts, the log says ['Inf.']
    exactly when the thruster is never set back to its previous state:
    a negative duration is unbounded, a positive one is logged as it is
    and ends with the return to the previous state. *)
Theorem duration_log_and_return (parameter : option R) (d : R) :
  SetThrusterState.read_duration parameter = Ok d ->
  parameter = Some d /\
  ((d < 0 /\ SetThrusterState.log_duration d = SetThrusterState.Inf /\
    SetThrusterState.returns_to_previous_state d = false) \/
   (0 < d /\ SetThrusterState.log_duration d = SetThrusterState.Secs d /\
    SetThrusterState.returns_to_previous_state d = true)).
Proof.
  unfold SetThrusterState.read_duration, SetThrusterState.log_duration,
    SetThrusterState.returns_to_previous_state.
  destruct parameter as [v |].
  - destruct (Req_dec_T v 0) as [| Hv]; [discriminate |].
    intros H. injection H as <-. split; [reflexivity |].
    destruct (Rlt_dec v 0); destruct (Rlt_dec 0 v); try lra.
    + left. repeat split. assumption.
    + right. repeat split. assumption.
  - destruct (Req_dec_T 0 0) as [_ | E]; [discriminate | now elim E].
Qed.

(** X14 and X17 at concrete parameters. *)

Lemma read_duration_nonzero (d : R) :
  d <> 0 -> SetThrusterState.read_duration (Some d) = Ok d.
Proof.
  intros Hd. unfold SetThrusterState.read_duration.
  destruct (Req_dec_T d 0); [contradiction | reflexivity].
Qed.
Lemma build_service_name_inj_rexrov :
  remove_slashes "/rexrov"
  = remove_slashes "/rexrov"
  /\ 3%Z = 3%Z.
Proof.
  apply (build_service_name_inj
           "/rexrov" "/rexrov" 3 3 "set_thruster_state").
  reflexivity.
Defined.

Lemma duration_log_and_return_negative :
  Some (-1) = Some (-1) /\
  ((-1 < 0 /\
    SetThrusterState.log_duration (-1) = SetThrusterState.Inf /\
    SetThrusterState.returns_to_previous_state (-1) = false) \/
   (0 < -1 /\
    SetThrusterState.log_duration (-1) = SetThrusterState.Secs (-1) /\
    SetThrusterState.returns_to_previous_state (-1) = true)).
Proof.
  apply (duration_log_and_return (Some (-1)) (-1)).
  apply read_duration_nonzero. lra.
Defined.

(** X15 and X16 at concrete parameters. *)
Lemma setup_succeeds_rexrov :
  setup 5 "/rexrov" (fun _ => true) (fun _ => true)
    (mkParameters (Some (-1)) (Some 10) (Some true) (Some (Some 3%Z)))
  = inl (mkSettings 5 10 true 3
           (build_service_name "rexrov" 3 "set_thruster_state")).
Proof.
  apply (proj2 (proj1 (setup_succeeds 5 "/rexrov" (fun _ => true)
                         (fun _ => true)
                         (mkParameters (Some (-1)) (Some 10) (Some true)
                            (Some (Some 3%Z))))
                  (mkSettings 5 10 true 3
                     (build_service_name "rexrov" 3 "set_thruster_state")))).
  exists 10, true, 3%Z. cbn [duration_parameter is_on_parameter
    thruster_id_parameter starting_time_parameter].
  repeat split; try reflexivity; try lra; try lia.
  destruct (Rlt_dec (-1) 0); [reflexivity | lra].
Defined.

Lemma setup_failures_not_integer :
  setup 5 "/rexrov" (fun _ => true) (fun _ => true)
    (mkParameters None (Some 10) (Some true) (Some None))
  = inr InvalidThrusterId.
Proof.
  destruct (setup_failures 5 "/rexrov" (fun _ => true) (fun _ => true)
              (mkParameters None (Some 10) (Some true) (Some None)))
    as [_ H].
  destruct (H 10 eq_refl ltac:(lra)) as [_ H'].
  destruct (H' true eq_refl) as (_ & Hbad & _).
  exact (Hbad eq_refl).
Defined.

End ThrusterScriptFacts.

(** ** The further properties, applied *)

Lemma line_path_of : path_of (compiled_generator line_path) line_path.
Proof.
  split; [| split].
  - simpl. lia.
  - apply compiled_generator_segments. simpl. lia.
  - apply compiled_generator_table. simpl. lia.
Qed.

(** X1 on the compiled line. *)
Lemma init_interpolator_idempotent_line :
  init_interpolator (compiled_generator line_path)
  = (Ok true, compiled_generator line_path).
Proof.
  apply (init_interpolator_idempotent (new_generator (Some line_path) None)).
  exact (proj1 compiled_generator_eq).
Defined.

(** X2 on a new generator and one with stale compiled fields. *)
Lemma init_interpolator_replaces_stale :
  init_interpolator stale_generator = (Ok true, compiled_generator line_path).
Proof.
  apply (init_interpolator_replaces (new_generator (Some line_path) None));
    try reflexivity.
  exact (proj1 compiled_generator_eq).
Defined.

(** X3 on the line: three segments. *)
Lemma init_interpolator_segments_line :
  exists segs,
    _interp_pos (compiled_generator line_path) = Some segs /\
    length segs = 3%nat.
Proof.
  destruct (init_interpolator_segments
              (new_generator (Some line_path) None)
              (compiled_generator line_path)
              (proj1 compiled_generator_eq))
    as (wps & segs & Hw & _ & Hsegs & Hlen & _).
  exists segs. split; [exact Hsegs |].
  cbn [new_generator _waypoints] in Hw. injection Hw as <-. exact Hlen.
Defined.

(** X4 on the line, whose waypoints all have speed 1. *)
Lemma init_interpolator_default_duration_line :
  _duration (compiled_generator line_path)
  = Some (ndiv (Fin (total_length line_path)) (Fin 1)) /\
  fst (init_interpolator (new_generator (Some line_path) None)) = Ok true.
Proof.
  destruct (init_interpolator_default_duration
              (new_generator (Some line_path) None) line_path 1)
    as (Hdur & _ & Htrue).
  - reflexivity.
  - simpl. lia.
  - reflexivity.
  - repeat constructor.
  - split; [exact Hdur | exact (Htrue _ fit_heading_line)].
Defined.

(** X5 on the first segment of the line. *)
Lemma arc_table_step_line :
  exists ti tj,
    nth_error (_s (compiled_generator line_path)) 0 = Some (Fin ti) /\
    nth_error (_s (compiled_generator line_path)) 1 = Some (Fin tj) /\
    tj - ti
    = get_length (mkLineSegment (pos (wp 0 0 0)) (pos (wp 2 0 0)))
      / total_length line_path /\
    (ti < tj <-> pos (wp 0 0 0) <> pos (wp 2 0 0)).
Proof.
  apply (arc_table_step line_path (compiled_generator line_path)
           line_path_of line_path_positive 0 (wp 0 0 0) (wp 2 0 0));
    reflexivity.
Defined.

(** X6 on the line at [s = -1]. *)
Lemma generate_pos_before_start_line :
  generate_pos (-1) (compiled_generator line_path)
  = (Ok (Some (vec_of_point (pos (wp 0 0 0)))), compiled_generator line_path).
Proof.
  apply (generate_pos_before_start line_path (compiled_generator line_path)
           line_path_of line_path_positive (-1) (wp 0 0 0)).
  - lra.
  - reflexivity.
Defined.

(** X7 on the line at [s = 1/2]. *)
Lemma generate_pos_arc_length_line :
  exists k a b u,
    nth_error line_path k = Some a /\ nth_error line_path (S k) = Some b /\
    0 < u <= 1 /\
    generate_pos (1 / 2) (compiled_generator line_path)
    = (Ok (Some (interpolate (mkLineSegment (pos a) (pos b)) (Fin u))),
       compiled_generator line_path) /\
    length_to line_path k + u * get_length (mkLineSegment (pos a) (pos b))
    = 1 / 2 * total_length line_path.
Proof.
  apply (generate_pos_arc_length line_path (compiled_generator line_path)
           line_path_of line_path_positive (1 / 2)).
  lra.
Defined.

(** X8 at the second waypoint of the line. *)
Lemma generate_pos_at_waypoint_line :
  generate_pos (length_to line_path 1 / total_length line_path)
    (compiled_generator line_path)
  = (Ok (Some (vec_of_point (pos (wp 2 0 0)))), compiled_generator line_path).
Proof.
  apply (generate_pos_at_waypoint line_path (compiled_generator line_path)
           line_path_of line_path_positive 1 (wp 2 0 0)).
  reflexivity.
Defined.

(** X9 at [s = 2]. *)
Lemma generate_quat_beyond_end_line :
  generate_quat 2 (compiled_generator line_path)
  = generate_quat 1 (compiled_generator line_path).
Proof.
  apply (generate_quat_beyond_end 2 (compiled_generator line_path)). lra.
Defined.

(** X10 on a new generator at [s = 1/2]. *)
Lemma generate_quat_not_compiled_new :
  generate_quat (1 / 2) (new_generator None None)
  = (Raise TypeError, new_generator None None).
Proof.
  apply (generate_quat_not_compiled (1 / 2) (new_generator None None)).
  - reflexivity.
  - lra.
Defined.

(** X12 on the line at [s = 1/2], [t = 3]. *)
Lemma generate_pnt_compiled_line :
  exists p q,
    generate_pnt (1 / 2) 3 (compiled_generator line_path)
    = (Ok p, set_last_rot q (compiled_generator line_path)) /\
    pnt_t p = 3 /\ pnt_rotq p = q.
Proof.
  destruct (generate_pnt_compiled (1 / 2) 3 (compiled_generator line_path)
              line_path_compiled)
    as (v & q & p & _ & _ & Hrun & Ht & _ & Hq & _).
  exists p, q. split; [exact Hrun | split; [exact Ht | exact Hq]].
Defined.

(** X13 on the line with [step = -1/2]. *)
Lemma get_samples_nonpositive_step_line :
  get_samples None (-1 / 2) (compiled_generator line_path)
  = (Ok (Some []), compiled_generator line_path).
Proof.
  apply (proj2 (get_samples_nonpositive_step None (compiled_generator line_path)
                  line_path_compiled)).
  lra.
Defined.

(** X11 on the line: still compiled after an orientation query. *)
Lemma queries_after_generate_quat_line :
  compiled (snd (generate_quat (1 / 2) (compiled_generator line_path))).
Proof.
  apply (proj2 (proj2 (queries_after_generate_quat (1 / 2) 0 None 1
                         (compiled_generator line_path)))).
  exact line_path_compiled.
Defined.

(** C7, counterexample: the generator compiled on the line, its waypoint
    set then replaced by a single waypoint.  [init_interpolator] returns
    [False] and the generator is not left in the state of a generator that
    is not compiled: it still holds the segments of the line and
    [generate_pos] still answers from them. *)
Lemma init_interpolator_keeps_old_path :
  _waypoints replaced_generator = Some [wp 0 0 0] /\
  init_interpolator replaced_generator = (Ok false, replaced_generator) /\
  _interp_pos replaced_generator <> None /\
  fst (generate_pos (1 / 2) replaced_generator)
  = Ok (Some (mkVec (Fin 5) (Fin 0) (Fin 0))).
Proof.
  split; [reflexivity |].
  split; [reflexivity |].
  split.
  - cbn [replaced_generator _interp_pos].
    rewrite compiled_generator_segments by (simpl; lia). discriminate.
  - rewrite (generate_pos_reads (1 / 2) replaced_generator
               (compiled_generator line_path) eq_refl eq_refl).
    unfold generate_pos, get_segment_idx.
    rewrite compiled_generator_segments by (simpl; lia).
    rewrite table_line. cbn [first_index_geq].
    rewrite (proj2 (nleb_fin_false (1 / 2) 0)) by lra.
    rewrite (proj2 (nleb_fin_false (1 / 2) (1 / 5))) by lra.
    rewrite (proj2 (nleb_fin (1 / 2) (1 / 2))) by lra.
    cbn [option_map length Nat.sub Nat.eqb].
    unfold bind, getitem, ret. cbn [nth_error].
    cbn [nsub]. rewrite ndiv_fin by lra.
    unfold line_path, wp. cbn [build_segments nth_error pos fst].
    unfold interpolate, vec_of_point.
    cbn [p_init p_target px py pz vx vy vz nsub nmul nadd].
    do 2 f_equal. f_equal; f_equal; field.
Qed.
